(** * lavamusic: player utilities ([src/utils/functions/player.ts])

    A shallow embedding of the fair-queue scheduler [applyFairPlayToQueue]
    and of the autoplay pipeline [autoPlayFunction], with the properties
    the specification states about them. *)

From Stdlib Require Import Ascii String.
From stdpp Require Import base option list strings gmap.

Open Scope string_scope.
Open Scope list_scope.
Open Scope nat_scope.
Set Warnings "-register-all".

(** * The program *)

(** ** JavaScript values

    The values [response.json()] can produce, plus [undefined] (the result
    of reading a property that is not there).  A number is carried by its
    canonical rendering [String(n)]: the only numbers that are falsy are
    the zeros and [NaN], which render as "0" and "NaN", so truthiness and
    template-literal conversion are both functions of the rendering. *)

Inductive JsVal : Type :=
  | JUndefined
  | JNull
  | JBool (b : bool)
  | JNum (rendering : string)
  | JStr (s : string)
  | JArr (elements : list JsVal)
  | JObj (fields : list (string * JsVal)).

(** ** A JavaScript [Map]: keys in insertion order, [set] on a present key
    replaces the value in place. *)

Module JsMap.
Section ops.
Context {K V : Type} `{EqDecision K}.

Fixpoint get (m : list (K * V)) (k : K) : option V :=
  match m with
  | [] => None
  | (k', v) :: m' => if decide (k = k') then Some v else get m' k
  end.

Definition has (m : list (K * V)) (k : K) : bool :=
  match get m k with Some _ => true | None => false end.

Fixpoint set (m : list (K * V)) (k : K) (v : V) : list (K * V) :=
  match m with
  | [] => [(k, v)]
  | (k', v') :: m' =>
      if decide (k = k') then (k', v) :: m' else (k', v') :: set m' k v
  end.

Definition keys (m : list (K * V)) : list K := m.*1.

Definition entries (m : list (K * V)) : list (K * V) := m.
End ops.
End JsMap.

(** ** Tracks and requesters *)

Record Requester := {
  id : string;
  username : string;
  discriminator : option string;
  avatarURL : option string
}.

Record TrackInfo := {
  title : string;
  author : string;
  uri : string
}.

(** [pluginInfo.clientData] is an open key-value bag; the remaining keys of
    [pluginInfo] are kept as they are. *)
Record PluginInfo := {
  clientData : option (gmap string JsVal);
  pluginRest : list (string * JsVal)
}.

Record Track := {
  info : TrackInfo;
  requester : Requester;
  pluginInfo : option PluginInfo
}.

(** ** applyFairPlayToQueue: the ordering (lines 178-207) *)

(** One iteration of [for (const track of tracks)] (lines 182-188). *)
Definition groupTrack (requesterMap : list (string * list Track)) (track : Track)
  : list (string * list Track) :=
  let requesterId := id (requester track) in
  let requesterMap :=
    if JsMap.has requesterMap requesterId then requesterMap
    else JsMap.set requesterMap requesterId [] in
  match JsMap.get requesterMap requesterId with
  | Some trackList => JsMap.set requesterMap requesterId (trackList ++ [track])
  | None => requesterMap
  end.

Definition groupByRequester (tracks : list Track) : list (string * list Track) :=
  fold_left groupTrack tracks [].

(** Lines 192-195: every requester's cursor starts at 0. *)
Definition initIndices (requesterMap : list (string * list Track))
  : list (string * nat) :=
  fold_left (fun requesterIndices requesterId =>
               JsMap.set requesterIndices requesterId 0)
            (JsMap.keys requesterMap) [].

Record FairState := {
  fairQueue : list Track;
  requesterIndices : list (string * nat);
  tracksAdded : nat
}.

(** Body of the [for ... of requesterMap.entries()] loop (lines 200-205).
    [currentIndex < trackList.length] is false when the cursor is missing,
    and inside the guard [trackList[currentIndex]] is in range. *)
Definition visitRequester (st : FairState) (entry : string * list Track)
  : FairState :=
  let '(requesterId, trackList) := entry in
  match JsMap.get (requesterIndices st) requesterId with
  | Some currentIndex =>
      if currentIndex <? length trackList then
        match trackList !! currentIndex with
        | Some track =>
            {| fairQueue := fairQueue st ++ [track];
               requesterIndices :=
                 JsMap.set (requesterIndices st) requesterId (currentIndex + 1);
               tracksAdded := tracksAdded st + 1 |}
        | None => st
        end
      else st
  | None => st
  end.

(** One full pass over the requester groups: the body of the [while]. *)
Definition fairPass (requesterMap : list (string * list Track)) (st : FairState)
  : FairState :=
  fold_left visitRequester (JsMap.entries requesterMap) st.

(** [while (tracksAdded < tracks.length)] (lines 198-207).  [fuel] bounds
    the number of passes; [None] stands for a loop that is still running
    when the fuel is used up. *)
Fixpoint fairLoop (fuel total : nat) (requesterMap : list (string * list Track))
    (st : FairState) : option FairState :=
  if tracksAdded st <? total then
    match fuel with
    | 0 => None
    | S fuel' => fairLoop fuel' total requesterMap (fairPass requesterMap st)
    end
  else Some st.

(** Lines 178-207: the fair queue built from a snapshot of the queue. *)
Definition buildFairQueue (fuel : nat) (tracks : list Track)
  : option (list Track) :=
  let requesterMap := groupByRequester tracks in
  let st := {| fairQueue := [];
               requesterIndices := initIndices requesterMap;
               tracksAdded := 0 |} in
  fairQueue <$> fairLoop fuel (length tracks) requesterMap st.

(** ** Strings

    Strings are byte strings; [toLowerCase] folds the letters A-Z and
    leaves every other byte as it is. *)

Definition lowerAscii (c : ascii) : ascii :=
  let n := nat_of_ascii c in
  if (65 <=? n) && (n <=? 90) then ascii_of_nat (n + 32) else c.

Fixpoint toLowerCase (s : string) : string :=
  match s with
  | EmptyString => EmptyString
  | String c s' => String (lowerAscii c) (toLowerCase s')
  end.

(** [s.includes(needle)] *)
Fixpoint includes (s needle : string) : bool :=
  String.prefix needle s ||
  match s with
  | EmptyString => false
  | String _ s' => includes s' needle
  end.

(** ** Reading JavaScript values *)

Definition truthy (v : JsVal) : bool :=
  match v with
  | JUndefined | JNull => false
  | JBool b => b
  | JNum rendering =>
      negb (bool_decide (rendering = "0") || bool_decide (rendering = "NaN"))
  | JStr s => negb (bool_decide (s = ""))
  | JArr _ | JObj _ => true
  end.

(** [v[key]] for the keys the lookup reads (similartracks, track, artist,
    name), none of which a primitive or an array has: [None] is the
    TypeError of reading a property of [null] or [undefined]. *)
Definition getProp (v : JsVal) (key : string) : option JsVal :=
  match v with
  | JUndefined | JNull => None
  | JObj fields => Some (default JUndefined (JsMap.get fields key))
  | JBool _ | JNum _ | JStr _ | JArr _ => Some JUndefined
  end.

(** The string a template literal makes of a value. *)
Fixpoint toStr (v : JsVal) : string :=
  match v with
  | JUndefined => "undefined"
  | JNull => "null"
  | JBool true => "true"
  | JBool false => "false"
  | JNum rendering => rendering
  | JStr s => s
  | JArr elements =>
      String.concat ","
        (List.map (fun e => match e with
                            | JUndefined | JNull => ""
                            | _ => toStr e
                            end) elements)
  | JObj _ => "[object Object]"
  end.

(** ** The player, the outside world and asynchronous code *)

Record Player := {
  autoplay : bool;              (* is [player.get("autoplay")] truthy *)
  playing : bool;               (* [player.playing] *)
  queue_tracks : list Track     (* [player.queue.tracks] *)
}.

(** What the code does to the outside, in the order it does it. *)
Inductive Event : Type :=
  | EFetch (url : string)
  | ESearch (query source : string) (requester : Requester)
  | EQueueSplice (index amount : nat)
  | EQueueAdd (tracks : list Track)
  | EPlay.

Record World := {
  player : Player;
  trace : list Event
}.

Record SearchResult := { res_tracks : list Track }.

(** The collaborators the code calls but does not implement.  An answer
    may depend on everything that happened before the call.  The lookup
    and the searches may fail; the operations on the queue and [play]
    are taken to resolve, as the specification describes them. *)
Class Collaborators := {
  (** [env.LASTFM_API_KEY] *)
  LASTFM_API_KEY : option string;
  (** [None]: a URIError is thrown *)
  encodeURIComponent : string -> option string;
  (** [fetch(url)]: [None] when the promise rejects; the response is what
      [response.json()] gives, [None] when that rejects *)
  fetch : list Event -> string -> option (option JsVal);
  (** [player.search({query, source}, requester)]: [None] when it rejects *)
  search : list Event -> string -> string -> Requester -> option SearchResult;
  (** what [player.play()] does to the player *)
  play : Player -> Player
}.

Inductive Completion (A : Type) : Type :=
  | Returned (a : A)
  | Thrown.
Arguments Returned {A} a.
Arguments Thrown {A}.

(** A computation that may change the world and either returns or throws
    (an async function: resolves or rejects). *)
Definition Async (A : Type) : Type := World -> Completion A * World.

#[global] Instance Async_ret : MRet Async := fun A a w => (Returned a, w).

#[global] Instance Async_bind : MBind Async := fun A B f c w =>
  match c w with
  | (Returned a, w') => f a w'
  | (Thrown, w') => (Thrown, w')
  end.

Definition throw {A} : Async A := fun w => (Thrown, w).

(** [try { body } catch { handler }] *)
Definition tryCatch {A} (body handler : Async A) : Async A := fun w =>
  match body w with
  | (Returned a, w') => (Returned a, w')
  | (Thrown, w') => handler w'
  end.

(** A pure step that may throw. *)
Definition orThrow {A} (o : option A) : Async A :=
  match o with Some a => mret a | None => throw end.

Definition emit (e : Event) : Async unit := fun w =>
  (Returned tt, {| player := player w; trace := trace w ++ [e] |}).

Definition getPlayer : Async Player := fun w => (Returned (player w), w).

Definition setPlayer (p : Player) : Async unit := fun w =>
  (Returned tt, {| player := p; trace := trace w |}).

(** [await fetch(url)]: the call is made, then it resolves or rejects. *)
Definition fetchUrl `{Collaborators} (url : string) : Async (option JsVal) :=
  fun w => (emit (EFetch url);; orThrow (fetch (trace w) url)) w.

(** [await response.json()] *)
Definition json (response : option JsVal) : Async JsVal := orThrow response.

(** [await player.search({ query, source }, requester)] *)
Definition playerSearch `{Collaborators} (query source : string)
    (requester : Requester) : Async SearchResult :=
  fun w => (emit (ESearch query source requester);;
            orThrow (search (trace w) query source requester)) w.

(** [await player.queue.add(tracks)]: the tracks go to the end. *)
Definition queueAdd (tracks : list Track) : Async unit :=
  emit (EQueueAdd tracks);;
  p ← getPlayer;
  setPlayer {| autoplay := autoplay p; playing := playing p;
               queue_tracks := queue_tracks p ++ tracks |}.

(** [await player.queue.splice(index, amount)] *)
Definition queueSplice (index amount : nat) : Async unit :=
  emit (EQueueSplice index amount);;
  p ← getPlayer;
  setPlayer {| autoplay := autoplay p; playing := playing p;
               queue_tracks := take index (queue_tracks p)
                               ++ drop (index + amount) (queue_tracks p) |}.

(** [await player.play()] *)
Definition playerPlay `{Collaborators} : Async unit :=
  emit EPlay;;
  p ← getPlayer;
  setPlayer (play p).

(** ** getSimilarTracksFromLastFm (lines 12-49) *)

Record Candidate := {
  artist : JsVal;
  name : JsVal
}.

(** [array.filter(f)] where [f] may throw. *)
Fixpoint filterThrowing {A} (f : A -> option bool) (l : list A)
  : option (list A) :=
  match l with
  | [] => Some []
  | x :: l' =>
      keep ← f x;
      rest ← filterThrowing f l';
      Some (if keep : bool then x :: rest else rest)
  end.

(** Line 35: [t.artist && t.name]. *)
Definition hasArtistAndName (t : JsVal) : option bool :=
  a ← getProp t "artist";
  if truthy a then n ← getProp t "name"; Some (truthy n) else Some false.

(** Lines 36-39. *)
Definition toCandidate (t : JsVal) : option Candidate :=
  a ← getProp t "artist";
  artist ← match a with
           | JStr _ => Some a
           | _ => getProp a "name"
           end;
  name ← getProp t "name";
  Some {| artist := artist; name := name |}.

(** Lines 29-45; [None] when reading the data throws. *)
Definition similarTracksOfData (data : JsVal) : option (list Candidate) :=
  similartracks ← getProp data "similartracks";
  if truthy similartracks then
    track ← getProp similartracks "track";
    if truthy track then
      let tracks := match track with
                    | JArr elements => elements
                    | _ => [track]
                    end in
      kept ← filterThrowing hasArtistAndName tracks;
      similarTracks ← mapM toCandidate kept;
      Some (take 10 similarTracks)
    else Some []
  else Some [].

(** Line 24. *)
Definition similarTracksUrl (API_KEY encodedArtist encodedTrack : string)
  : string :=
  "https://ws.audioscrobbler.com/2.0/?method=track.getsimilar&artist="
  +:+ encodedArtist +:+ "&track=" +:+ encodedTrack
  +:+ "&api_key=" +:+ API_KEY +:+ "&format=json&limit=10".

(** The [try] block, lines 17-45. *)
Definition lookupBody `{Collaborators} (artist track : string)
  : Async (list Candidate) :=
  match LASTFM_API_KEY with
  | None => mret []
  | Some API_KEY =>
      if bool_decide (API_KEY = "") then mret [] else
      encodedArtist ← orThrow (encodeURIComponent artist);
      encodedTrack ← orThrow (encodeURIComponent track);
      let url := similarTracksUrl API_KEY encodedArtist encodedTrack in
      response ← fetchUrl url;
      data ← json response;
      orThrow (similarTracksOfData data)
  end.

Definition getSimilarTracksFromLastFm `{Collaborators} (artist track : string)
  : Async (list Candidate) :=
  tryCatch (lookupBody artist track) (mret []).

(** ** autoPlayFunction (lines 84-170) *)

(** Lines 104-108 and 147-150: the title names a lyrics version. *)
Definition isLyricsVersion (track : Track) : bool :=
  let title := toLowerCase (title (info track)) in
  includes title "lyrics" || includes title "lyric".

(** Lines 110-117 and 152-159: the autoplay mark goes into
    [pluginInfo.clientData], next to what is there.  The source writes it
    into the track object, which comes fresh from a search; the marked
    value stands for that object. *)
Definition markFromAutoplay (track : Track) : Track :=
  let pluginInfo :=
    default {| clientData := None; pluginRest := [] |} (pluginInfo track) in
  {| info := info track;
     requester := requester track;
     pluginInfo := Some
       {| clientData :=
            Some (<["fromAutoplay" := JBool true]>
                    (default ∅ (clientData pluginInfo)));
          pluginRest := pluginRest pluginInfo |} |}.

(** Lines 92-100: one search of the primary path. *)
Definition searchFirst `{Collaborators} (lastTrack : Track) (track : Candidate)
  : Async (option Track) :=
  tryCatch
    (let searchQuery := toStr (artist track) +:+ " " +:+ toStr (name track) in
     result ← playerSearch searchQuery "ytmsearch" (requester lastTrack);
     mret (match res_tracks result with
           | first :: _ => Some first
           | [] => None
           end))
    (mret None).

(** Lines 92-108: the searches of the primary path, their results joined
    in candidate order, and what is left of them after the two filters. *)
Definition primarySearch `{Collaborators} (lastTrack : Track)
    (similarTracks : list Candidate) : Async (list Track) :=
  results ← mapM (searchFirst lastTrack) (take 10 similarTracks);
  mret (filter (fun track => isLyricsVersion track = false)
          (omap (fun r : option Track => r) results)).

(** Lines 120-125 and 162-167. *)
Definition addAndPlay `{Collaborators} (tracks : list Track) : Async unit :=
  queueAdd tracks;;
  p ← getPlayer;
  if negb (playing p) && (0 <? length (queue_tracks p))
  then playerPlay else mret tt.

(** Lines 131-142. *)
Definition fallbackLookup `{Collaborators} (lastTrack : Track)
  : Async (option SearchResult) :=
  let artistQuery := author (info lastTrack) +:+ " popular songs" in
  tryCatch
    (res ← playerSearch artistQuery "ytmsearch" (requester lastTrack);
     mret (Some res))
    (mret None).

(** Lines 130-169: the fallback path. *)
Definition fallbackSearch `{Collaborators} (lastTrack : Track) : Async unit :=
  fallbackRes ← fallbackLookup lastTrack;
  match fallbackRes with
  | Some res =>
      if 0 <? length (res_tracks res) then
        let cleanedTracks :=
          markFromAutoplay <$>
            take 3 (filter (fun track => isLyricsVersion track = false)
                      (res_tracks res)) in
        if 0 <? length cleanedTracks then addAndPlay cleanedTracks
        else mret tt
      else mret tt
  | None => mret tt
  end.

Definition autoPlayFunction `{Collaborators} (lastTrack : option Track)
  : Async unit :=
  p ← getPlayer;
  if negb (autoplay p) then mret tt else
  match lastTrack with
  | None => mret tt
  | Some lastTrack =>
      similarTracks ← getSimilarTracksFromLastFm
                        (author (info lastTrack)) (title (info lastTrack));
      if 0 <? length similarTracks then
        survivors ← primarySearch lastTrack similarTracks;
        let foundTracks := markFromAutoplay <$> take 10 survivors in
        if 0 <? length foundTracks then addAndPlay foundTracks
        else fallbackSearch lastTrack
      else fallbackSearch lastTrack
  end.

(** ** applyFairPlayToQueue (lines 177-214)

    [None] when the loop is still running after [fuel] passes. *)
Definition applyFairPlayToQueue (fuel : nat) (w : World)
  : option (Completion (list Track) * World) :=
  let tracks := queue_tracks (player w) in
  fairQueue ← buildFairQueue fuel tracks;
  Some ((p ← getPlayer;
         queueSplice 0 (length (queue_tracks p));;
         queueAdd fairQueue;;
         mret fairQueue) w).

(** * Notions the properties are stated with *)

(** ** The fair queue *)

(** The tracks of requester [k] in [l], in the order of [l]. *)
Definition tracksOf (k : string) (l : list Track) : list Track :=
  filter (fun t => id (requester t) = k) l.

(** Round [r]: the [r]-th track of every group that has one, in key order. *)
Definition roundAt (groups : list (string * list Track)) (r : nat) : list Track :=
  omap (fun e => e.2 !! r) groups.

(** The cursors, the number of tracks appended, and the loop state at
    the head of the [while] after [r] passes. *)
Definition cursorsAt (groups : list (string * list Track)) (r : nat)
  : list (string * nat) :=
  (fun e => (e.1, length e.2 `min` r)) <$> groups.

Definition addedAt (groups : list (string * list Track)) (r : nat) : nat :=
  sum_list ((fun e => length e.2 `min` r) <$> groups).

Definition totalLen (groups : list (string * list Track)) : nat :=
  sum_list ((fun e => length e.2) <$> groups).

(** The number of passes the loop makes: the size of the largest group. *)
Definition numRounds (groups : list (string * list Track)) : nat :=
  foldr (fun e acc => length e.2 `max` acc) 0 groups.

Definition stateAt (groups : list (string * list Track)) (r : nat) : FairState :=
  {| fairQueue := concat (roundAt groups <$> seq 0 r);
     requesterIndices := cursorsAt groups r;
     tracksAdded := addedAt groups r |}.

(** [groups] maps distinct requesters to their tracks in [tracks]. *)
Definition groupsOf (tracks : list Track) (groups : list (string * list Track))
  : Prop :=
  NoDup (JsMap.keys groups) /\
  forall k g, (k, g) ∈ groups -> g = tracksOf k tracks.

(** The distinct elements of a list, each at the place of its first
    occurrence. *)
Fixpoint firstAppearances (ids : list string) : list string :=
  match ids with
  | [] => []
  | x :: ids' => x :: filter (fun y => y <> x) (firstAppearances ids')
  end.

(** ** The autoplay pipeline *)

(** Events that are calls to the recommendation or the search service. *)
Definition isServiceCall (e : Event) : Prop :=
  match e with
  | EFetch _ | ESearch _ _ _ => True
  | EQueueSplice _ _ | EQueueAdd _ | EPlay => False
  end.

(** [w'] comes from [w] by service calls alone: the player is as it was. *)
Definition onlyCalls (w w' : World) : Prop :=
  player w' = player w /\
  exists calls, trace w' = trace w ++ calls /\ Forall isServiceCall calls.

(** What the fallback search leaves after the lyrics filter. *)
Definition usableOf (fallbackRes : option SearchResult) : list Track :=
  match fallbackRes with
  | Some res => filter (fun track => isLyricsVersion track = false) (res_tracks res)
  | None => []
  end.

(** A track as it is enqueued: marked, and not a lyrics version. *)
Definition enqueueable (t : Track) : Prop :=
  exists t0, t = markFromAutoplay t0 /\ isLyricsVersion t0 = false.



Definition isString (v : JsVal) : bool :=
  match v with JStr _ => true | _ => false end.

(** The shape of answer the lookup is written for (lines 29-39 and the
    declared result type): an object whose [similartracks.track] is an
    entry or an array of entries, an entry being an object with a string
    [name] and an [artist] that is a string or an object with a string
    [name]. *)
Definition wellShapedEntry (t : JsVal) : bool :=
  match t with
  | JObj fields =>
      isString (default JUndefined (JsMap.get fields "name")) &&
      match default JUndefined (JsMap.get fields "artist") with
      | JStr _ => true
      | JObj artistFields =>
          isString (default JUndefined (JsMap.get artistFields "name"))
      | _ => false
      end
  | _ => false
  end.

Definition wellShaped (data : JsVal) : bool :=
  match data with
  | JObj fields =>
      match JsMap.get fields "similartracks" with
      | Some (JObj similartracks) =>
          match JsMap.get similartracks "track" with
          | Some (JArr elements) => forallb wellShapedEntry elements
          | Some (JObj entry) => wellShapedEntry (JObj entry)
          | _ => false
          end
      | _ => false
      end
  | _ => false
  end.

(** [t'] is [t] with the autoplay mark merged into its client data:
    the mark is set, every other key of the client data and the rest of
    the track are as in [t]. *)
Definition markedCopyOf (t' t : Track) : Prop :=
  info t' = info t /\ requester t' = requester t /\
  exists pi cd,
    pluginInfo t' = Some pi /\ clientData pi = Some cd /\
    cd !! "fromAutoplay" = Some (JBool true) /\
    (forall k, k <> "fromAutoplay" ->
       cd !! k = (pluginInfo t ≫= clientData) ≫= (fun m => m !! k)) /\
    pluginRest pi = default [] (pluginRest <$> pluginInfo t).

(** ** requesterTransformer (lines 58-73) *)

(** What [requesterTransformer] may be given: a value as in [JsVal] (a
    primitive, [undefined], [null], an array, or a plain object, listed
    with one entry per own property), or an object that inherits a
    [displayAvatarURL] method, such as a user. *)
Inductive RequesterArg : Type :=
  | Plain (v : JsVal)
  | UserObject (props : list (string * JsVal))
               (displayAvatarURL : string -> JsVal).

(** [v.toString()], and the string an array makes of an element [v];
    [None] when it throws: an own [toString] property of a [JsVal] object
    is not a function, and [null] and [undefined] have no methods. *)
Fixpoint toStringOf (v : JsVal) : option string :=
  match v with
  | JUndefined | JNull => None
  | JBool true => Some "true"
  | JBool false => Some "false"
  | JNum rendering => Some rendering
  | JStr s => Some s
  | JArr elements =>
      parts ← (fix join (l : list JsVal) : option (list string) :=
                 match l with
                 | [] => Some []
                 | e :: l' =>
                     s ← match e with
                         | JUndefined | JNull => Some ""
                         | _ => toStringOf e
                         end;
                     rest ← join l';
                     Some (s :: rest)
                 end) elements;
      Some (String.concat "," parts)
  | JObj fields =>
      if JsMap.has fields "toString" then None else Some "[object Object]"
  end.

(** Line 72: [{ id: requester?.toString() || "unknown", username: "unknown" }]. *)
Definition unknownRequester (requester : JsVal) : option RequesterArg :=
  shown ← match requester with
          | JUndefined | JNull => Some ""
          | _ => toStringOf requester
          end;
  Some (Plain (JObj [("id", JStr (if bool_decide (shown = "")
                                  then "unknown" else shown));
                     ("username", JStr "unknown")])).

(** Line 60: ["avatar" in requester && Object.keys(requester).length === 3]. *)
Definition looksTransformed (props : list (string * JsVal)) : bool :=
  JsMap.has props "avatar" && (length props =? 3).

(** [None] when a TypeError is thrown: by ["avatar" in null], by calling
    a [displayAvatarURL] or a [toString] that is not a function. *)
Definition requesterTransformer (requester : RequesterArg)
  : option RequesterArg :=
  match requester with
  | Plain JNull => None
  | Plain (JObj fields) =>
      if looksTransformed fields then Some requester
      else if JsMap.has fields "displayAvatarURL" then None
      else unknownRequester (JObj fields)
  | Plain v => unknownRequester v
  | UserObject props displayAvatarURL =>
      if looksTransformed props then Some requester
      else Some (Plain (JObj
             [("id", default JUndefined (JsMap.get props "id"));
              ("username", default JUndefined (JsMap.get props "username"));
              ("avatarURL", displayAvatarURL "png");
              ("discriminator",
               default JUndefined (JsMap.get props "discriminator"))]))
  end.

(** ** paginateLyrics (the lyrics command, [src/unnamed/part_000],
    lines 553-581)

    A string is the list of its code units: [newline] is the code unit
    of "\n", and [isWhiteSpace] tells the code units that [trim] removes
    (white space and line terminators). *)

Section lyrics.
Context {C : Type} `{EqDecision C}.
Variable newline : C.
Variable isWhiteSpace : C -> bool.

(** [s.split("\n")] *)
Fixpoint splitLines (s : list C) : list (list C) :=
  match s with
  | [] => [[]]
  | c :: s' =>
      if decide (c = newline) then [] :: splitLines s'
      else match splitLines s' with
           | line :: rest => (c :: line) :: rest
           | [] => [[c]]
           end
  end.

Fixpoint trimStart (s : list C) : list C :=
  match s with
  | [] => []
  | c :: s' => if isWhiteSpace c then trimStart s' else s
  end.

Definition trimEnd (s : list C) : list C := reverse (trimStart (reverse s)).

(** [s.trim()] *)
Definition trim (s : list C) : list C := trimEnd (trimStart s).

Definition MAX_CHARACTERS_PER_PAGE : nat := 2800.

Record PagerState := {
  pages : list (list C);
  currentPage : list C
}.

(** Lines 563-565 and 572-574: [if (currentPage.trim()) pages.push(currentPage.trim())]. *)
Definition pushPage (pages : list (list C)) (currentPage : list C)
  : list (list C) :=
  match trim currentPage with
  | [] => pages
  | _ :: _ => pages ++ [trim currentPage]
  end.

(** The body of [for (const line of lines)] (lines 560-569). *)
Definition addLine (st : PagerState) (line : list C) : PagerState :=
  let lineWithNewline := line ++ [newline] in
  if MAX_CHARACTERS_PER_PAGE <? length (currentPage st) + length lineWithNewline
  then {| pages := pushPage (pages st) (currentPage st);
          currentPage := lineWithNewline |}
  else {| pages := pages st;
          currentPage := currentPage st ++ lineWithNewline |}.

(** A page that is not empty and neither begins nor ends with white
    space. *)
Definition goodPage (p : list C) : Prop :=
  p <> [] /\
  (forall c, head p = Some c \/ last p = Some c -> isWhiteSpace c = false).

(** [noLyricsAvailable] is [ctx.locale("cmd.lyrics.no_lyrics_available")]. *)
Definition paginateLyrics (noLyricsAvailable lyrics : list C)
  : list (list C) :=
  let lines := splitLines lyrics in
  let st := fold_left addLine lines {| pages := []; currentPage := [] |} in
  let pages := pushPage (pages st) (currentPage st) in
  if length pages =? 0 then pages ++ [noLyricsAvailable] else pages.
End lyrics.

(** ** Notions for the further properties *)

(** The test of line 60 holds of the argument. *)
Definition recognised (requester : RequesterArg) : bool :=
  match requester with
  | Plain (JObj props) | UserObject props _ => looksTransformed props
  | Plain _ => false
  end.


(** The requester [{ id: shown, username: "unknown" }]. *)
Definition unknownWith (shown : string) : RequesterArg :=
  Plain (JObj [("id", JStr shown); ("username", JStr "unknown")]).

(** The URL the lookup fetches, when it gets as far as fetching. *)
Definition lookupUrlOf `{Collaborators} (artist track : string) : option string :=
  match LASTFM_API_KEY with
  | Some API_KEY =>
      if bool_decide (API_KEY = "") then None else
      encodedArtist ← encodeURIComponent artist;
      encodedTrack ← encodeURIComponent track;
      Some (similarTracksUrl API_KEY encodedArtist encodedTrack)
  | None => None
  end.

(** The calls found in a list of events. *)
Definition fetchesOf (evs : list Event) : list string :=
  omap (fun e => match e with EFetch url => Some url | _ => None end) evs.

Definition searchesOf (evs : list Event) : list string :=
  omap (fun e => match e with ESearch query _ _ => Some query | _ => None end) evs.

Definition addsOf (evs : list Event) : list (list Track) :=
  omap (fun e => match e with EQueueAdd tracks => Some tracks | _ => None end) evs.

Definition playsOf (evs : list Event) : list unit :=
  omap (fun e => match e with EPlay => Some tt | _ => None end) evs.

Definition splicesOf (evs : list Event) : list (nat * nat) :=
  omap (fun e => match e with
                 | EQueueSplice index amount => Some (index, amount)
                 | _ => None
                 end) evs.

(** The search made for a candidate (lines 94-95). *)
Definition searchEventOf (lastTrack : Track) (c : Candidate) : Event :=
  ESearch (toStr (artist c) +:+ " " +:+ toStr (name c)) "ytmsearch"
          (requester lastTrack).


(** An event is a search. *)
Definition isSearchEvent (e : Event) : Prop :=
  match e with ESearch _ _ _ => True | _ => False end.

(** A candidate as the lookup declares it: artist and name are strings. *)
Definition declaredCandidate (c : Candidate) : Prop :=
  exists a n, artist c = JStr a /\ name c = JStr n.

(** ** Concrete tracks, players and collaborators *)

Definition mkRequester (i : string) : Requester :=
  {| id := i; username := i; discriminator := None; avatarURL := None |}.

Definition mkTrack (who name : string) : Track :=
  {| info := {| title := name; author := "artist"; uri := name |};
     requester := mkRequester who;
     pluginInfo := None |}.

Definition idlePlayer (auto : bool) (queue : list Track) : Player :=
  {| autoplay := auto; playing := false; queue_tracks := queue |}.

Definition startOf (p : Player) : World := {| player := p; trace := [] |}.

Definition markPlaying (p : Player) : Player :=
  {| autoplay := autoplay p; playing := true; queue_tracks := queue_tracks p |}.

(** The recommendation service is down; every search finds three songs,
    one of them a lyrics version. *)
Definition lastFmDown : Collaborators := {|
  LASTFM_API_KEY := Some "key";
  encodeURIComponent := Some;
  fetch := fun _ _ => None;
  search := fun _ _ _ _ =>
    Some {| res_tracks := [mkTrack "bot" "Hit one";
                           mkTrack "bot" "Hit one (Lyrics)";
                           mkTrack "bot" "Hit two"] |};
  play := markPlaying
|}.

(** The recommendation service is down and searches find lyrics versions
    only. *)
Definition lyricsOnly : Collaborators := {|
  LASTFM_API_KEY := Some "key";
  encodeURIComponent := Some;
  fetch := fun _ _ => None;
  search := fun _ _ _ _ =>
    Some {| res_tracks := [mkTrack "bot" "Song (Official Lyric Video)"] |};
  play := markPlaying
|}.

(** An answer with one entry whose artist has no name. *)
Definition malformedAnswer : JsVal :=
  JObj [("similartracks",
         JObj [("track",
                JArr [JObj [("name", JStr "x"); ("artist", JObj [])]])])].


(** No API key is set; searches as for [lastFmDown]. *)
Definition noApiKey : Collaborators := {|
  LASTFM_API_KEY := None;
  encodeURIComponent := Some;
  fetch := fun _ _ => Some (Some malformedAnswer);
  search := fun _ _ _ _ =>
    Some {| res_tracks := [mkTrack "bot" "Hit one";
                           mkTrack "bot" "Hit one (Lyrics)";
                           mkTrack "bot" "Hit two"] |};
  play := markPlaying
|}.

(** An answer with two entries, one naming its artist by an object. *)
Definition wellShapedAnswer : JsVal :=
  JObj [("similartracks",
         JObj [("track",
                JArr [JObj [("name", JStr "x"); ("artist", JStr "a")];
                      JObj [("name", JStr "y");
                            ("artist", JObj [("name", JStr "b")])]])])].

(** A user with the properties the transformer reads. *)
Definition someUser : RequesterArg :=
  UserObject [("id", JStr "42"); ("username", JStr "ada");
              ("discriminator", JStr "0"); ("avatar", JNull);
              ("bot", JBool false)]
             (fun extension => JStr ("https://cdn/42." +:+ extension)).

(** Code units as numbers: line feed and space are white space. *)
Definition blankUnit (c : nat) : bool := (c =? 10) || (c =? 32).

(** "hi", a line with a space, " yo " and an empty last line. *)
Definition sampleLyrics : list nat :=
  [104; 105; 10; 32; 10; 32; 121; 111; 32; 10].

Definition noLyricsPage : list nat := [110; 111; 110; 101].

Definition sharedQueue : list Track :=
  [mkTrack "A" "a1"; mkTrack "A" "a2"; mkTrack "A" "a3"; mkTrack "B" "b1"].

(** * Properties *)

(** ** The examples of the specification *)

Example fair_example_spec :
  buildFairQueue 4
    [mkTrack "A" "a1"; mkTrack "A" "a2"; mkTrack "A" "a3"; mkTrack "B" "b1"]
  = Some [mkTrack "A" "a1"; mkTrack "B" "b1"; mkTrack "A" "a2"; mkTrack "A" "a3"].
Proof. vm_compute. reflexivity. Qed.

Example fair_example_empty : buildFairQueue 0 [] = Some [].
Proof. reflexivity. Qed.

Example fair_example_three :
  buildFairQueue 6
    [mkTrack "A" "a1"; mkTrack "A" "a2"; mkTrack "B" "b1"; mkTrack "C" "c1";
     mkTrack "B" "b2"; mkTrack "A" "a3"]
  = Some [mkTrack "A" "a1"; mkTrack "B" "b1"; mkTrack "C" "c1";
          mkTrack "A" "a2"; mkTrack "B" "b2"; mkTrack "A" "a3"].
Proof. vm_compute. reflexivity. Qed.

(** ** Lemmas on [JsMap] *)

Section JsMap_lemmas.
Context {K V : Type} `{EqDecision K}.
Implicit Types (m : list (K * V)) (k : K) (v : V).

Lemma get_None m k : JsMap.get m k = None <-> k ∉ JsMap.keys m.
Proof.
  unfold JsMap.keys. induction m as [|[k' v'] m IH]; simpl.
  - split; [intros _; apply not_elem_of_nil | done].
  - rewrite not_elem_of_cons. destruct (decide (k = k')); [|tauto].
    split; [done | tauto].
Qed.

Lemma get_elem_of m k v : JsMap.get m k = Some v -> (k, v) ∈ m.
Proof.
  induction m as [|[k' v'] m IH]; simpl; [done|].
  destruct (decide (k = k')) as [->|]; [intros [= ->]; left | right; auto].
Qed.

Lemma elem_of_get m k v :
  NoDup (JsMap.keys m) -> (k, v) ∈ m -> JsMap.get m k = Some v.
Proof.
  unfold JsMap.keys. induction m as [|[k' v'] m IH]; simpl.
  - intros _ Hin. by apply elem_of_nil in Hin.
  - rewrite NoDup_cons. intros [Hk Hnd] [[= -> ->]|Hin]%elem_of_cons.
    + by rewrite decide_True.
    + destruct (decide (k = k')) as [->|]; [|auto].
      destruct Hk. apply list_elem_of_fmap. by exists (k', v).
Qed.

Lemma get_set_eq m k v : JsMap.get (JsMap.set m k v) k = Some v.
Proof.
  induction m as [|[k' v'] m IH]; simpl.
  - by rewrite decide_True.
  - destruct (decide (k = k')) as [->|]; simpl.
    + by rewrite decide_True.
    + by rewrite decide_False.
Qed.

Lemma get_set_ne m k k' v :
  k <> k' -> JsMap.get (JsMap.set m k v) k' = JsMap.get m k'.
Proof.
  intros Hne. induction m as [|[k0 v0] m IH]; simpl.
  - by rewrite decide_False.
  - destruct (decide (k = k0)) as [->|]; simpl.
    + by rewrite !decide_False.
    + by rewrite IH.
Qed.

Lemma set_fresh m k v : JsMap.get m k = None -> JsMap.set m k v = m ++ [(k, v)].
Proof.
  induction m as [|[k' v'] m IH]; simpl; [done|].
  destruct (decide (k = k')); [done|]. intros Hg. by rewrite IH.
Qed.

Lemma keys_set_present m k v :
  is_Some (JsMap.get m k) -> JsMap.keys (JsMap.set m k v) = JsMap.keys m.
Proof.
  unfold JsMap.keys. induction m as [|[k' v'] m IH]; simpl.
  - by intros [? ?].
  - destruct (decide (k = k')); csimpl; [done|]. intros Hs. by rewrite IH.
Qed.

(** Overwriting the entry whose key is the first not yet in [m1]. *)
Lemma set_middle m1 m2 k v v' :
  k ∉ JsMap.keys m1 ->
  JsMap.set (m1 ++ (k, v) :: m2) k v' = m1 ++ (k, v') :: m2.
Proof.
  unfold JsMap.keys. induction m1 as [|[k0 v0] m1 IH]; simpl.
  - intros _. by rewrite decide_True.
  - rewrite not_elem_of_cons. intros [Hne Hk].
    rewrite decide_False by done. by rewrite IH.
Qed.

Lemma get_middle m1 m2 k v :
  k ∉ JsMap.keys m1 -> JsMap.get (m1 ++ (k, v) :: m2) k = Some v.
Proof.
  unfold JsMap.keys. induction m1 as [|[k0 v0] m1 IH]; simpl.
  - intros _. by rewrite decide_True.
  - rewrite not_elem_of_cons. intros [Hne Hk].
    rewrite decide_False by done. by apply IH.
Qed.
End JsMap_lemmas.

(** ** Grouping by requester *)

Lemma tracksOf_snoc k l t :
  tracksOf k (l ++ [t]) =
  tracksOf k l ++ (if decide (id (requester t) = k) then [t] else []).
Proof.
  unfold tracksOf. by rewrite filter_app.
Qed.

Lemma groupByRequester_snoc l t :
  groupByRequester (l ++ [t]) = groupTrack (groupByRequester l) t.
Proof. unfold groupByRequester. by rewrite fold_left_app. Qed.

(** What [groupTrack] does, by whether the requester is already a key. *)
Lemma groupTrack_present m t g :
  JsMap.get m (id (requester t)) = Some g ->
  groupTrack m t = JsMap.set m (id (requester t)) (g ++ [t]).
Proof. intros Hg. unfold groupTrack, JsMap.has. by rewrite !Hg. Qed.

Lemma groupTrack_fresh m t :
  JsMap.get m (id (requester t)) = None ->
  groupTrack m t = m ++ [(id (requester t), [t])].
Proof.
  intros Hg. unfold groupTrack, JsMap.has. rewrite Hg, get_set_eq.
  rewrite (set_fresh m) by done.
  apply set_middle. by apply get_None.
Qed.

Lemma groupByRequester_spec l :
  NoDup (JsMap.keys (groupByRequester l)) /\
  forall k, JsMap.get (groupByRequester l) k =
            if decide (tracksOf k l = []) then None else Some (tracksOf k l).
Proof.
  induction l as [|t l [IHnd IHget]] using rev_ind.
  - split; [constructor | done].
  - rewrite groupByRequester_snoc. set (m := groupByRequester l) in *.
    pose proof (IHget (id (requester t))) as Hk0.
    destruct (decide (tracksOf (id (requester t)) l = [])) as [He|Hne].
    + rewrite (groupTrack_fresh m t Hk0). split.
      * unfold JsMap.keys in *. rewrite fmap_app. simpl.
        apply NoDup_app. split_and!; [done| |apply NoDup_singleton].
        intros k Hk ->%list_elem_of_singleton. by apply get_None in Hk0.
      * intros k. rewrite tracksOf_snoc.
        destruct (decide (id (requester t) = k)) as [<-|Hkne].
        -- rewrite get_middle by (by apply get_None).
           by rewrite He.
        -- rewrite app_nil_r, <- IHget.
           rewrite <- (set_fresh m _ [t]) by done. by apply get_set_ne.
    + rewrite (groupTrack_present m t _ Hk0). split.
      * rewrite keys_set_present; [done | by rewrite Hk0].
      * intros k. rewrite tracksOf_snoc.
        destruct (decide (id (requester t) = k)) as [<-|Hkne].
        -- rewrite get_set_eq. rewrite decide_False; [done|].
           by intros [? _]%app_eq_nil.
        -- rewrite app_nil_r, <- IHget. by apply get_set_ne.
Qed.

Lemma groupByRequester_NoDup l : NoDup (JsMap.keys (groupByRequester l)).
Proof. apply groupByRequester_spec. Qed.

(** Every group holds exactly its requester's tracks, in queue order. *)
Lemma groupByRequester_elem l k g :
  (k, g) ∈ groupByRequester l -> g = tracksOf k l /\ g <> [].
Proof.
  intros Hin. apply elem_of_get in Hin; [|apply groupByRequester_NoDup].
  destruct (groupByRequester_spec l) as [_ Hget]. rewrite Hget in Hin.
  destruct (decide (tracksOf k l = [])); [done|]. by injection Hin as <-.
Qed.

Lemma set_concat_perm (m : list (string * list Track)) k g t :
  JsMap.get m k = Some g ->
  concat (JsMap.set m k (g ++ [t])).*2 ≡ₚ concat m.*2 ++ [t].
Proof.
  induction m as [|[k' g'] m IH]; simpl; [done|].
  destruct (decide (k = k')) as [->|Hne]; csimpl.
  - intros [= ->]. rewrite <- !(assoc_L (++)).
    f_equiv. apply Permutation_app_comm.
  - intros Hg. rewrite IH by done. by rewrite (assoc_L (++)).
Qed.

Lemma groupByRequester_perm l : concat (groupByRequester l).*2 ≡ₚ l.
Proof.
  induction l as [|t l IH] using rev_ind; [done|].
  rewrite groupByRequester_snoc.
  destruct (JsMap.get (groupByRequester l) (id (requester t))) as [g|] eqn:Hg.
  - rewrite (groupTrack_present _ _ _ Hg), set_concat_perm by done.
    by rewrite IH.
  - rewrite (groupTrack_fresh _ _ Hg), fmap_app, concat_app. simpl.
    by rewrite IH.
Qed.

(** ** The round-robin loop in closed form *)

Lemma initIndices_from (ks : list string) (acc : list (string * nat)) :
  NoDup (JsMap.keys acc ++ ks) ->
  fold_left (fun requesterIndices requesterId =>
               JsMap.set requesterIndices requesterId 0) ks acc
  = acc ++ ((fun k => (k, 0)) <$> ks).
Proof.
  revert acc. induction ks as [|k ks IH]; intros acc Hnd; simpl.
  - by rewrite app_nil_r.
  - assert (k ∉ JsMap.keys acc) as Hk.
    { apply NoDup_app in Hnd as (_ & Hd & _). intros Hin.
      apply (Hd k Hin). left. }
    rewrite set_fresh by (by apply get_None).
    rewrite IH; [by rewrite <- (assoc_L (++))|].
    unfold JsMap.keys in *. rewrite fmap_app, <- (assoc_L (++)). done.
Qed.

Lemma initIndices_spec groups :
  NoDup (JsMap.keys groups) -> initIndices groups = cursorsAt groups 0.
Proof.
  intros Hnd. unfold initIndices. rewrite initIndices_from by done.
  unfold cursorsAt, JsMap.keys. simpl. rewrite <- list_fmap_compose.
  apply list_fmap_ext. intros _ [k g] _. simpl. f_equal. lia.
Qed.

Lemma roundAt_cons k g groups r :
  roundAt ((k, g) :: groups) r = option_list (g !! r) ++ roundAt groups r.
Proof. unfold roundAt. simpl. by destruct (g !! r). Qed.

Lemma cursorsAt_snoc gs1 k g r (rest : list (string * nat)) :
  cursorsAt (gs1 ++ [(k, g)]) r ++ rest
  = cursorsAt gs1 r ++ (k, length g `min` r) :: rest.
Proof. unfold cursorsAt. by rewrite fmap_app, <- (assoc_L (++)). Qed.

(** The tail of a pass: the groups of [gs1] have been visited in round
    [r], those of [gs2] are still to come. *)
Lemma fairPass_from r gs2 : forall gs1 fq added,
  NoDup (JsMap.keys (gs1 ++ gs2)) ->
  fold_left visitRequester gs2
    {| fairQueue := fq;
       requesterIndices := cursorsAt gs1 (S r) ++ cursorsAt gs2 r;
       tracksAdded := added |}
  = {| fairQueue := fq ++ roundAt gs2 r;
       requesterIndices := cursorsAt (gs1 ++ gs2) (S r);
       tracksAdded := added + length (roundAt gs2 r) |}.
Proof.
  induction gs2 as [|[k g] gs2 IH]; intros gs1 fq added Hnd.
  - simpl. by rewrite !app_nil_r, Nat.add_0_r.
  - rewrite roundAt_cons. cbn [fold_left visitRequester requesterIndices].
    assert (k ∉ JsMap.keys (cursorsAt gs1 (S r))) as Hk.
    { unfold JsMap.keys, cursorsAt in *. rewrite <- list_fmap_compose.
      rewrite fmap_app in Hnd. apply NoDup_app in Hnd as (_ & Hd & _).
      intros Hin. apply (Hd k); [exact Hin | left]. }
    assert (NoDup (JsMap.keys ((gs1 ++ [(k, g)]) ++ gs2))) as Hnd'.
    { by rewrite <- (assoc_L (++)). }
    change (cursorsAt ((k, g) :: gs2) r)
      with ((k, length g `min` r) :: cursorsAt gs2 r).
    rewrite (get_middle _ _ _ _ Hk).
    assert (cursorsAt (gs1 ++ (k, g) :: gs2) (S r)
            = cursorsAt ((gs1 ++ [(k, g)]) ++ gs2) (S r)) as ->.
    { by rewrite <- (assoc_L (++)). }
    destruct (decide (r < length g)) as [Hlt|Hge].
    + rewrite Nat.min_r by lia.
      destruct (Nat.ltb_spec r (length g)); [|lia].
      destruct (lookup_lt_is_Some_2 g r Hlt) as [t Ht]. rewrite Ht.
      cbn [fairQueue requesterIndices tracksAdded option_list].
      rewrite (set_middle _ _ _ _ _ Hk).
      replace (r + 1) with (length g `min` S r) by lia.
      rewrite <- cursorsAt_snoc, (IH _ _ _ Hnd').
      f_equal; [by rewrite <- (assoc_L (++)) | simpl; lia].
    + rewrite Nat.min_l by lia.
      destruct (Nat.ltb_spec (length g) (length g)); [lia|].
      rewrite (lookup_ge_None_2 g r) by lia.
      replace (length g) with (length g `min` S r) at 1 by lia.
      rewrite <- cursorsAt_snoc, (IH _ _ _ Hnd'). done.
Qed.

Lemma addedAt_S groups r :
  addedAt groups r + length (roundAt groups r) = addedAt groups (S r).
Proof.
  unfold addedAt. induction groups as [|[k g] groups IH]; [done|].
  rewrite roundAt_cons, length_app. csimpl.
  assert (length (option_list (g !! r)) + length g `min` r
          = length g `min` S r) as Hg.
  { destruct (g !! r) eqn:Hl; simpl.
    - apply lookup_lt_Some in Hl. lia.
    - apply lookup_ge_None in Hl. lia. }
  lia.
Qed.

Lemma fairPass_spec groups r :
  NoDup (JsMap.keys groups) ->
  fairPass groups (stateAt groups r) = stateAt groups (S r).
Proof.
  intros Hnd. unfold fairPass, JsMap.entries, stateAt.
  rewrite (fairPass_from r groups [] _ _ Hnd).
  rewrite seq_S, fmap_app, concat_app, addedAt_S. simpl.
  by rewrite app_nil_r.
Qed.

Lemma addedAt_le groups r : addedAt groups r <= totalLen groups.
Proof.
  unfold addedAt, totalLen.
  induction groups as [|[k g] groups IH]; csimpl; lia.
Qed.

Lemma addedAt_lt groups r :
  addedAt groups r < totalLen groups <-> r < numRounds groups.
Proof.
  pose proof (addedAt_le groups r) as Hle. revert Hle.
  unfold addedAt, totalLen.
  induction groups as [|[k g] groups IH]; csimpl; [lia|].
  intros _. pose proof (addedAt_le groups r) as Hle.
  unfold addedAt, totalLen in Hle. specialize (IH Hle). lia.
Qed.

Lemma numRounds_le groups : numRounds groups <= totalLen groups.
Proof.
  unfold totalLen. induction groups as [|[k g] groups IH]; csimpl; lia.
Qed.

(** The loop makes exactly [numRounds] passes, given that much fuel. *)
Lemma fairLoop_spec groups fuel : forall r,
  NoDup (JsMap.keys groups) ->
  r <= numRounds groups ->
  fairLoop fuel (totalLen groups) groups (stateAt groups r) =
  if decide (numRounds groups <= r + fuel)
  then Some (stateAt groups (numRounds groups)) else None.
Proof.
  induction fuel as [|fuel IH]; intros r Hnd Hr; simpl.
  - destruct (Nat.ltb_spec (addedAt groups r) (totalLen groups)) as [Hlt|Hge].
    + apply addedAt_lt in Hlt. rewrite decide_False by lia. done.
    + assert (~ r < numRounds groups) by (rewrite <- addedAt_lt; lia).
      rewrite decide_True by lia. do 2 f_equal. lia.
  - destruct (Nat.ltb_spec (addedAt groups r) (totalLen groups)) as [Hlt|Hge].
    + apply addedAt_lt in Hlt. rewrite fairPass_spec, IH by (done || lia).
      destruct (decide (numRounds groups <= S r + fuel));
        [rewrite decide_True by lia | rewrite decide_False by lia]; done.
    + assert (~ r < numRounds groups) by (rewrite <- addedAt_lt; lia).
      rewrite decide_True by lia. do 2 f_equal. lia.
Qed.

Lemma totalLen_groupByRequester tracks :
  totalLen (groupByRequester tracks) = length tracks.
Proof.
  rewrite <- (Permutation_length (groupByRequester_perm tracks)).
  unfold totalLen. induction (groupByRequester tracks) as [|[k g] m IH]; [done|].
  csimpl. rewrite length_app. lia.
Qed.

Lemma stateAt_0 groups :
  stateAt groups 0 =
  {| fairQueue := []; requesterIndices := cursorsAt groups 0; tracksAdded := 0 |}.
Proof.
  unfold stateAt. simpl. f_equal. unfold addedAt.
  induction groups as [|[k g] groups IH]; csimpl; lia.
Qed.

Lemma buildFairQueue_spec fuel tracks :
  buildFairQueue fuel tracks =
  let groups := groupByRequester tracks in
  if decide (numRounds groups <= fuel)
  then Some (concat (roundAt groups <$> seq 0 (numRounds groups))) else None.
Proof.
  unfold buildFairQueue. simpl.
  pose proof (groupByRequester_NoDup tracks) as Hnd.
  rewrite initIndices_spec by done.
  rewrite <- totalLen_groupByRequester.
  rewrite <- (stateAt_0 (groupByRequester tracks)).
  rewrite fairLoop_spec by (done || lia). simpl.
  by destruct (decide (numRounds (groupByRequester tracks) <= fuel)).
Qed.

(** ** Rounds against groups *)

(** Reading a group column by column gives the group back. *)
Lemma column_take (g : list Track) n :
  concat ((fun r => option_list (g !! r)) <$> seq 0 n) = take n g.
Proof.
  induction n as [|n IH]; [done|].
  rewrite seq_S, fmap_app, concat_app, IH. simpl. rewrite app_nil_r.
  destruct (g !! n) eqn:Hn; simpl.
  - by rewrite (take_S_r _ _ _ Hn).
  - apply lookup_ge_None in Hn. rewrite app_nil_r, !take_ge by lia. done.
Qed.

Lemma concat_fmap_app_perm {A} (f g : nat -> list A) rs :
  concat ((fun r => f r ++ g r) <$> rs) ≡ₚ concat (f <$> rs) ++ concat (g <$> rs).
Proof.
  induction rs as [|r rs IH]; [done|]. csimpl. rewrite IH.
  rewrite <- !(assoc_L (++)). f_equiv. rewrite !(assoc_L (++)). f_equiv.
  apply Permutation_app_comm.
Qed.

Lemma numRounds_ge groups k g :
  (k, g) ∈ groups -> length g <= numRounds groups.
Proof.
  induction groups as [|[k' g'] groups IH]; simpl.
  - intros Hin. by apply elem_of_nil in Hin.
  - intros [[= -> ->]|Hin]%elem_of_cons; [lia|]. specialize (IH Hin). lia.
Qed.

Lemma rounds_perm groups n :
  numRounds groups <= n ->
  concat (roundAt groups <$> seq 0 n) ≡ₚ concat groups.*2.
Proof.
  induction groups as [|[k g] groups IH]; intros Hn.
  - unfold roundAt. simpl. clear Hn. induction (seq 0 n); [done|]. by csimpl.
  - simpl in Hn.
    rewrite (list_fmap_ext (roundAt ((k, g) :: groups))
               (fun r => option_list (g !! r) ++ roundAt groups r) (seq 0 n)).
    2: { intros _ r _. apply roundAt_cons. }
    rewrite concat_fmap_app_perm, column_take, IH by lia. csimpl.
    rewrite take_ge by lia. done.
Qed.

(** The tracks of requester [X] within round [r]. *)
Lemma tracksOf_option_list X k tracks r :
  tracksOf X (option_list (tracksOf k tracks !! r)) =
  if decide (k = X) then option_list (tracksOf k tracks !! r) else [].
Proof.
  destruct (tracksOf k tracks !! r) as [t|] eqn:Ht; simpl.
  - apply list_elem_of_lookup_2 in Ht.
    apply list_elem_of_filter in Ht as [Ht _].
    unfold tracksOf. destruct (decide (k = X)) as [<-|Hne].
    + by rewrite filter_cons_True.
    + rewrite filter_cons_False; [done | congruence].
  - by destruct (decide (k = X)).
Qed.

Lemma groupsOf_groupByRequester tracks : groupsOf tracks (groupByRequester tracks).
Proof.
  split; [apply groupByRequester_NoDup|].
  intros k g Hin. by apply groupByRequester_elem in Hin as [-> _].
Qed.

Lemma groupsOf_cons tracks k g groups :
  groupsOf tracks ((k, g) :: groups) ->
  g = tracksOf k tracks /\ (k ∉ JsMap.keys groups) /\ groupsOf tracks groups.
Proof.
  intros [Hnd Hg]. unfold JsMap.keys in *. csimpl in Hnd.
  apply NoDup_cons in Hnd as [Hk Hnd]. split_and!; [apply Hg; left|done|].
  split; [done|]. intros k' g' Hin. apply Hg. by right.
Qed.

Lemma groupsOf_app tracks gs1 gs2 :
  groupsOf tracks (gs1 ++ gs2) -> groupsOf tracks gs1 /\ groupsOf tracks gs2.
Proof.
  intros [Hnd Hg]. unfold JsMap.keys in *. rewrite fmap_app in Hnd.
  apply NoDup_app in Hnd as (Hnd1 & _ & Hnd2).
  split; (split; [done|]); intros k g Hin; apply Hg, elem_of_app; auto.
Qed.

Lemma tracksOf_roundAt tracks groups X r :
  groupsOf tracks groups ->
  tracksOf X (roundAt groups r) =
  if decide (X ∈ JsMap.keys groups)
  then option_list (tracksOf X tracks !! r) else [].
Proof.
  induction groups as [|[k g] groups IH]; intros Hgs.
  - rewrite decide_False; [done | apply not_elem_of_nil].
  - apply groupsOf_cons in Hgs as (-> & Hk & Hgs).
    rewrite roundAt_cons. unfold tracksOf at 1. rewrite filter_app.
    fold (tracksOf X (option_list (tracksOf k tracks !! r))).
    fold (tracksOf X (roundAt groups r)).
    rewrite tracksOf_option_list, IH by done.
    unfold JsMap.keys in *. csimpl.
    destruct (decide (k = X)) as [->|Hne].
    + rewrite (decide_False (P := (X ∈ groups.*1))) by done.
      rewrite decide_True by left. by rewrite app_nil_r.
    + simpl. destruct (decide (X ∈ groups.*1)).
      * rewrite decide_True; [done | by right].
      * rewrite decide_False; [done|].
        intros [?|?]%elem_of_cons; congruence.
Qed.

Lemma tracksOf_concat X (ls : list (list Track)) :
  tracksOf X (concat ls) = concat (tracksOf X <$> ls).
Proof.
  induction ls as [|l ls IH]; [done|]. csimpl.
  unfold tracksOf in *. by rewrite filter_app, IH.
Qed.

Lemma tracksOf_not_key tracks X :
  X ∉ JsMap.keys (groupByRequester tracks) -> tracksOf X tracks = [].
Proof.
  intros Hk. apply get_None in Hk.
  destruct (groupByRequester_spec tracks) as [_ Hget]. rewrite Hget in Hk.
  by destruct (decide (tracksOf X tracks = [])).
Qed.

(** The first [n] rounds hold the first [n] tracks of every requester. *)
Lemma tracksOf_rounds tracks X n :
  tracksOf X (concat (roundAt (groupByRequester tracks) <$> seq 0 n))
  = take n (tracksOf X tracks).
Proof.
  pose proof (groupsOf_groupByRequester tracks) as Hgs.
  rewrite tracksOf_concat, <- list_fmap_compose.
  rewrite (list_fmap_ext _ (fun r => option_list (tracksOf X tracks !! r)) (seq 0 n)).
  - apply column_take.
  - intros _ r _. simpl. rewrite (tracksOf_roundAt tracks) by done.
    destruct (decide (X ∈ JsMap.keys (groupByRequester tracks))); [done|].
    by rewrite tracksOf_not_key.
Qed.

Lemma tracksOf_length_le tracks X :
  length (tracksOf X tracks) <= numRounds (groupByRequester tracks).
Proof.
  destruct (decide (X ∈ JsMap.keys (groupByRequester tracks))) as [Hin|Hk].
  - apply list_elem_of_fmap in Hin as ([k g] & -> & Hin).
    pose proof (numRounds_ge _ _ _ Hin) as Hle.
    apply groupByRequester_elem in Hin as [-> _]. done.
  - rewrite tracksOf_not_key by done. simpl. lia.
Qed.

(** ** Positions in the output *)

(** A position in the first [n] rounds lies in one round [r], after the
    whole of the rounds before it. *)
Lemma rounds_split groups n : forall p t q,
  concat (roundAt groups <$> seq 0 n) = p ++ t :: q ->
  exists r a b,
    r < n /\ roundAt groups r = a ++ t :: b /\
    p = concat (roundAt groups <$> seq 0 r) ++ a.
Proof.
  induction n as [|n IH]; intros p t q Heq.
  - by destruct p.
  - rewrite seq_S, fmap_app, concat_app in Heq. simpl in Heq.
    rewrite app_nil_r in Heq.
    apply app_eq_app in Heq as [l [[Hc Hr]|[Hp Hr]]].
    + destruct l as [|t' l].
      * rewrite app_nil_r in Hc. simpl in Hr.
        exists n, [], q. split_and!; [lia|done|by rewrite app_nil_r, Hc].
      * injection Hr as -> Hq.
        destruct (IH _ _ _ Hc) as (r & a & b & Hlt & Hrd & Hpre).
        exists r, a, b. split_and!; [lia|done|done].
    + exists n, l, q. split_and!; [lia|done|done].
Qed.

(** A position in a round belongs to one group. *)
Lemma roundAt_split r : forall groups a t b,
  roundAt groups r = a ++ t :: b ->
  exists gs1 k g gs2,
    groups = gs1 ++ (k, g) :: gs2 /\ g !! r = Some t /\
    a = roundAt gs1 r /\ b = roundAt gs2 r.
Proof.
  induction groups as [|[k g] groups IH]; intros a t b Heq.
  - by destruct a.
  - rewrite roundAt_cons in Heq. destruct (g !! r) as [t0|] eqn:Hg; simpl in Heq.
    + destruct a as [|t1 a]; simpl in Heq.
      * injection Heq as -> <-. by exists [], k, g, groups.
      * injection Heq as -> Heq.
        destruct (IH _ _ _ Heq) as (gs1 & k' & g' & gs2 & -> & Hl & -> & ->).
        exists ((k, g) :: gs1), k', g', gs2.
        split_and!; [done|done| |done].
        rewrite roundAt_cons, Hg. done.
    + destruct (IH _ _ _ Heq) as (gs1 & k' & g' & gs2 & -> & Hl & -> & ->).
      exists ((k, g) :: gs1), k', g', gs2.
      split_and!; [done|done| |done].
      rewrite roundAt_cons, Hg. done.
Qed.

(** With distinct keys, a key splits the map in one way only. *)
Lemma key_split_unique {V} (a a' b b' : list (string * V)) k v v' :
  NoDup (JsMap.keys (a ++ (k, v) :: b)) ->
  a ++ (k, v) :: b = a' ++ (k, v') :: b' -> a = a'.
Proof.
  unfold JsMap.keys. revert a'.
  induction a as [|[k0 v0] a IH]; intros a' Hnd Heq.
  - destruct a' as [|[k1 v1] a']; [done|]. simpl in Heq.
    injection Heq as <- <- Heq. simpl in Hnd. apply NoDup_cons in Hnd as [Hk _].
    destruct Hk. rewrite Heq, fmap_app, elem_of_app. right. left.
  - destruct a' as [|[k1 v1] a']; simpl in Heq.
    + injection Heq as -> -> Heq. csimpl in Hnd.
      apply NoDup_cons in Hnd as [Hk _].
      destruct Hk. rewrite fmap_app, elem_of_app. right. left.
    + injection Heq as <- <- Heq. csimpl in Hnd.
      apply NoDup_cons in Hnd as [_ Hnd]. f_equal. by apply IH.
Qed.

(** How many tracks of [X] precede a track [t], the [r]-th of its
    requester: [r] of them, and one more when [X] comes before [t]'s
    requester in key order (as far as [X] has that many). *)
Lemma count_before tracks n p t q :
  let groups := groupByRequester tracks in
  concat (roundAt groups <$> seq 0 n) = p ++ t :: q ->
  exists r gs1 g gs2,
    groups = gs1 ++ (id (requester t), g) :: gs2 /\
    r < length (tracksOf (id (requester t)) tracks) /\
    forall X,
      length (tracksOf X p) =
      r `min` length (tracksOf X tracks) +
      (if decide (X ∈ JsMap.keys gs1 /\ r < length (tracksOf X tracks))
       then 1 else 0).
Proof.
  intros groups Heq.
  pose proof (groupsOf_groupByRequester tracks) as Hgs. fold groups in Hgs.
  destruct (rounds_split _ _ _ _ _ Heq) as (r & a & b & Hr & Hrd & ->).
  destruct (roundAt_split _ _ _ _ _ Hrd) as (gs1 & k & g & gs2 & Hsplit & Hl & -> & ->).
  assert (g = tracksOf k tracks) as ->.
  { apply Hgs. rewrite Hsplit, elem_of_app. right. left. }
  assert (id (requester t) = k) as Hk.
  { apply list_elem_of_lookup_2 in Hl. by apply list_elem_of_filter in Hl as [? _]. }
  exists r, gs1, (tracksOf k tracks), gs2. rewrite Hk.
  split_and!; [done | by apply lookup_lt_Some in Hl |].
  intros X. unfold tracksOf at 1. rewrite filter_app, length_app.
  fold (tracksOf X (concat (roundAt groups <$> seq 0 r))).
  fold (tracksOf X (roundAt gs1 r)).
  unfold groups at 1. rewrite tracksOf_rounds, length_take.
  rewrite Hsplit in Hgs. apply groupsOf_app in Hgs as [Hgs1 _].
  rewrite (tracksOf_roundAt tracks) by done. f_equal.
  destruct (decide (X ∈ JsMap.keys gs1)) as [Hin|Hnin].
  - destruct (tracksOf X tracks !! r) eqn:HX; simpl.
    + apply lookup_lt_Some in HX. rewrite decide_True; done.
    + apply lookup_ge_None in HX. rewrite decide_False; [done|]. lia.
  - rewrite decide_False; [done | tauto].
Qed.

Lemma tracksOf_cons_ne X t l :
  id (requester t) <> X -> tracksOf X (t :: l) = tracksOf X l.
Proof. intros Hne. unfold tracksOf. by rewrite filter_cons_False. Qed.

Lemma tracksOf_cons_eq t l :
  tracksOf (id (requester t)) (t :: l) = t :: tracksOf (id (requester t)) l.
Proof. unfold tracksOf. by rewrite filter_cons_True. Qed.

Lemma tracksOf_app X l1 l2 : tracksOf X (l1 ++ l2) = tracksOf X l1 ++ tracksOf X l2.
Proof. apply filter_app. Qed.

(** Between two consecutive tracks of one requester, every other
    requester with a track still to come has exactly one. *)
Lemma between_consecutive tracks n pre t1 mid t2 post X :
  numRounds (groupByRequester tracks) <= n ->
  concat (roundAt (groupByRequester tracks) <$> seq 0 n)
    = pre ++ t1 :: mid ++ t2 :: post ->
  id (requester t1) = id (requester t2) ->
  tracksOf (id (requester t1)) mid = [] ->
  X <> id (requester t1) ->
  tracksOf X (mid ++ post) <> [] ->
  length (tracksOf X mid) = 1.
Proof.
  intros Hn Hout HR Hmid HX Hrem.
  set (R := id (requester t1)) in *.
  pose proof (groupByRequester_NoDup tracks) as Hnd.
  destruct (count_before tracks n pre t1 _ Hout)
    as (r1 & gs1 & g1 & gs2 & Hs1 & Hr1 & Hc1).
  assert (concat (roundAt (groupByRequester tracks) <$> seq 0 n)
          = (pre ++ t1 :: mid) ++ t2 :: post) as Hout2.
  { rewrite Hout, <- (assoc_L (++)). done. }
  destruct (count_before tracks n _ t2 _ Hout2)
    as (r2 & gs1' & g2 & gs2' & Hs2 & Hr2 & Hc2).
  fold R in Hs1, Hr1. rewrite <- HR in Hs2, Hr2.
  assert (gs1' = gs1) as ->.
  { symmetry. eapply key_split_unique; [|rewrite <- Hs1; exact Hs2].
    by rewrite <- Hs1. }
  assert (R ∉ JsMap.keys gs1) as HRk.
  { rewrite Hs1 in Hnd. unfold JsMap.keys in *. rewrite fmap_app in Hnd.
    apply NoDup_app in Hnd as (_ & Hd & _). intros Hin.
    apply (Hd R Hin). left. }
  (* the cursor of [R] moves from [r1] to [r1 + 1] *)
  pose proof (Hc1 R) as HcR1. pose proof (Hc2 R) as HcR2.
  rewrite decide_False in HcR1 by tauto. rewrite decide_False in HcR2 by tauto.
  rewrite tracksOf_app, length_app in HcR2. unfold R in HcR2 at 2.
  rewrite tracksOf_cons_eq in HcR2. fold R in HcR2. rewrite Hmid in HcR2.
  simpl in HcR2.
  (* the tracks of [X] *)
  pose proof (Hc1 X) as HcX1. pose proof (Hc2 X) as HcX2.
  rewrite tracksOf_app, length_app, tracksOf_cons_ne in HcX2 by done.
  pose proof (tracksOf_rounds tracks X n) as Htot.
  rewrite take_ge in Htot by (pose proof (tracksOf_length_le tracks X); lia).
  rewrite Hout in Htot. apply (f_equal length) in Htot.
  rewrite tracksOf_app, length_app, tracksOf_cons_ne in Htot by done.
  rewrite tracksOf_app, length_app, tracksOf_cons_ne in Htot by congruence.
  assert (0 < length (tracksOf X mid) + length (tracksOf X post)) as Hpos.
  { rewrite tracksOf_app in Hrem. destruct (tracksOf X mid), (tracksOf X post);
      simpl; try lia. done. }
  destruct (decide (X ∈ JsMap.keys gs1)) as [Hin|Hnin].
  - destruct (decide (r1 < length (tracksOf X tracks)));
      [rewrite decide_True in HcX1 by done
      |rewrite decide_False in HcX1 by tauto];
    (destruct (decide (r2 < length (tracksOf X tracks)));
      [rewrite decide_True in HcX2 by done
      |rewrite decide_False in HcX2 by tauto]); lia.
  - rewrite decide_False in HcX1 by tauto.
    rewrite decide_False in HcX2 by tauto. lia.
Qed.

(** ** First-appearance order *)

Lemma elem_of_firstAppearances ids x : x ∈ firstAppearances ids <-> x ∈ ids.
Proof.
  induction ids as [|y ids IH]; simpl; [done|].
  rewrite !elem_of_cons, list_elem_of_filter, IH.
  destruct (decide (x = y)); tauto.
Qed.

Lemma firstAppearances_snoc ids x :
  firstAppearances (ids ++ [x]) =
  if decide (x ∈ ids) then firstAppearances ids else firstAppearances ids ++ [x].
Proof.
  induction ids as [|y ids IH]; simpl; [done|].
  rewrite IH. destruct (decide (x = y)) as [->|Hne].
  - rewrite (decide_True (P := (y ∈ y :: ids))) by left.
    destruct (decide (y ∈ ids)); [done|].
    rewrite filter_app, filter_cons_False by (simpl; tauto).
    by rewrite filter_nil, app_nil_r.
  - destruct (decide (x ∈ ids)) as [Hin|Hnin].
    + rewrite decide_True; [done | by right].
    + rewrite (decide_False (P := (x ∈ y :: ids)))
        by (intros [?|?]%elem_of_cons; done).
      rewrite filter_app, filter_cons_True by done. done.
Qed.

Lemma keys_groupByRequester tracks :
  JsMap.keys (groupByRequester tracks)
  = firstAppearances ((fun t => id (requester t)) <$> tracks).
Proof.
  induction tracks as [|t l IH] using rev_ind; [done|].
  rewrite groupByRequester_snoc, fmap_app. cbn [fmap list_fmap].
  rewrite firstAppearances_snoc.
  destruct (JsMap.get (groupByRequester l) (id (requester t))) as [g|] eqn:Hg.
  - rewrite (groupTrack_present _ _ _ Hg).
    rewrite keys_set_present by (by rewrite Hg). rewrite IH.
    rewrite decide_True; [done|].
    apply elem_of_firstAppearances. rewrite <- IH.
    apply get_elem_of in Hg. apply list_elem_of_fmap. by eexists (_, _).
  - rewrite (groupTrack_fresh _ _ Hg). unfold JsMap.keys in *.
    rewrite fmap_app, IH. simpl.
    rewrite decide_False; [done|].
    rewrite <- elem_of_firstAppearances, <- IH. by apply get_None.
Qed.

(** The requesters of round [r]: those with more than [r] tracks. *)
Lemma requesters_roundAt tracks groups r :
  groupsOf tracks groups ->
  (fun t => id (requester t)) <$> roundAt groups r
  = filter (fun k => r < length (tracksOf k tracks)) (JsMap.keys groups).
Proof.
  induction groups as [|[k g] groups IH]; intros Hgs; [done|].
  apply groupsOf_cons in Hgs as (-> & _ & Hgs).
  rewrite roundAt_cons, fmap_app, IH by done. unfold JsMap.keys. csimpl.
  destruct (tracksOf k tracks !! r) as [t|] eqn:Ht.
  - pose proof (lookup_lt_Some _ _ _ Ht).
    rewrite filter_cons_True by done. simpl. f_equal.
    apply list_elem_of_lookup_2 in Ht. by apply list_elem_of_filter in Ht as [? _].
  - apply lookup_ge_None in Ht. rewrite filter_cons_False by lia. done.
Qed.

(** ** The loop makes progress *)

Lemma addedAt_step groups r :
  r < numRounds groups -> addedAt groups r < addedAt groups (S r).
Proof.
  unfold addedAt. induction groups as [|[k g] groups IH]; csimpl; [lia|].
  intros Hr. assert (sum_list ((fun e => length e.2 `min` r) <$> groups)
                     <= sum_list ((fun e => length e.2 `min` S r) <$> groups)).
  { clear. induction groups as [|[k g] groups IH]; csimpl; lia. }
  destruct (decide (r < length g)); [lia|].
  assert (r < numRounds groups) as Hr' by lia. specialize (IH Hr'). lia.
Qed.

Lemma roundAt_nonempty groups r : r < numRounds groups -> roundAt groups r <> [].
Proof.
  intros Hr Hnil. apply addedAt_step in Hr.
  rewrite <- addedAt_S, Hnil in Hr. simpl in Hr. lia.
Qed.

Lemma numRounds_groupByRequester tracks :
  numRounds (groupByRequester tracks) <= length tracks.
Proof. rewrite <- totalLen_groupByRequester. apply numRounds_le. Qed.

Lemma iter_fairPass tracks r :
  let groups := groupByRequester tracks in
  Nat.iter r (fairPass groups)
    {| fairQueue := []; requesterIndices := initIndices groups; tracksAdded := 0 |}
  = stateAt groups r.
Proof.
  intros groups. pose proof (groupByRequester_NoDup tracks) as Hnd.
  induction r as [|r IH]; simpl.
  - by rewrite initIndices_spec, stateAt_0.
  - by rewrite IH, fairPass_spec.
Qed.

(** The fair queue, whenever the fuel covers the input length. *)
Lemma buildFairQueue_enough fuel tracks :
  length tracks <= fuel ->
  buildFairQueue fuel tracks =
  Some (concat (roundAt (groupByRequester tracks)
                  <$> seq 0 (numRounds (groupByRequester tracks)))).
Proof.
  intros Hfuel. rewrite buildFairQueue_spec. simpl.
  pose proof (numRounds_groupByRequester tracks).
  rewrite decide_True by lia. done.
Qed.

(** A queue of one requester comes back as it is. *)
Lemma buildFairQueue_single_requester fuel tracks R :
  length tracks <= fuel ->
  Forall (fun t => id (requester t) = R) tracks ->
  buildFairQueue fuel tracks = Some tracks.
Proof.
  intros Hfuel Hall. rewrite buildFairQueue_enough by done. f_equal.
  set (out := concat _).
  assert (forall l, Forall (fun t => id (requester t) = R) l -> tracksOf R l = l)
    as Hid.
  { intros l Hl. unfold tracksOf. induction Hl as [|t l Ht _ IH]; [done|].
    by rewrite filter_cons_True, IH. }
  assert (out ≡ₚ tracks) as Hperm.
  { unfold out. rewrite rounds_perm by done. apply groupByRequester_perm. }
  rewrite <- (Hid out) by (by rewrite Hperm).
  unfold out. rewrite tracksOf_rounds, take_ge by apply tracksOf_length_le.
  by apply Hid.
Qed.

Lemma applyFairPlayToQueue_enough fuel w :
  length (queue_tracks (player w)) <= fuel ->
  let tracks := queue_tracks (player w) in
  let out := concat (roundAt (groupByRequester tracks)
                       <$> seq 0 (numRounds (groupByRequester tracks))) in
  applyFairPlayToQueue fuel w =
  Some (Returned out,
        {| player := {| autoplay := autoplay (player w);
                        playing := playing (player w);
                        queue_tracks := out |};
           trace := trace w ++ [EQueueSplice 0 (length tracks); EQueueAdd out] |}).
Proof.
  intros Hfuel tracks out. unfold applyFairPlayToQueue.
  rewrite buildFairQueue_enough by done. fold tracks. fold out.
  cbv [mbind mret option_bind Async_bind Async_ret getPlayer setPlayer emit
       queueAdd queueSplice].
  cbn [player trace autoplay playing queue_tracks].
  do 3 f_equal.
  - f_equal. simpl. by rewrite drop_all.
  - by rewrite <- (assoc_L (++)).
Qed.

(** ** The fair-queue scheduler: claims *)

(** C1. The sequence [applyFairPlayToQueue] produces is a permutation of
    the queue it read: the same tracks with the same multiplicities, and
    so the same length. *)
Theorem applyFairPlayToQueue_permutation (fuel : nat) (w : World) :
  length (queue_tracks (player w)) <= fuel ->
  exists fairQueue w',
    applyFairPlayToQueue fuel w = Some (Returned fairQueue, w') /\
    fairQueue ≡ₚ queue_tracks (player w) /\
    length fairQueue = length (queue_tracks (player w)).
Proof.
  intros Hfuel. eexists _, _. split; [by apply applyFairPlayToQueue_enough|].
  assert (concat (roundAt (groupByRequester (queue_tracks (player w)))
            <$> seq 0 (numRounds (groupByRequester (queue_tracks (player w)))))
          ≡ₚ queue_tracks (player w)) as Hperm.
  { rewrite rounds_perm by done. apply groupByRequester_perm. }
  split; [done | by rewrite Hperm].
Qed.

(** C2. For every requester [R] (requesters are compared by [id]), the
    tracks of [R] appear in the output in the order they had in the
    input: the two subsequences are equal. *)
Theorem applyFairPlayToQueue_requester_order (fuel : nat) (w : World) (R : string) :
  length (queue_tracks (player w)) <= fuel ->
  exists fairQueue w',
    applyFairPlayToQueue fuel w = Some (Returned fairQueue, w') /\
    filter (fun t => id (requester t) = R) fairQueue
    = filter (fun t => id (requester t) = R) (queue_tracks (player w)).
Proof.
  intros Hfuel. eexists _, _. split; [by apply applyFairPlayToQueue_enough|].
  fold (tracksOf R (queue_tracks (player w))).
  fold (tracksOf R (concat (roundAt (groupByRequester (queue_tracks (player w)))
     <$> seq 0 (numRounds (groupByRequester (queue_tracks (player w))))))).
  rewrite tracksOf_rounds. apply take_ge, tracksOf_length_le.
Qed.

(** C3. The output is the concatenation of rounds.  Round [r] takes, from
    every requester with more than [r] tracks and from no one else, that
    requester's [r]-th track, the requesters in the order of their first
    appearance in the input; so no requester has two tracks in one round.
    And between two consecutive tracks of one requester, every other
    requester with a track still to come has exactly one track. *)
Theorem applyFairPlayToQueue_rounds (fuel : nat) (w : World) :
  let tracks := queue_tracks (player w) in
  let requesterOf := fun t : Track => id (requester t) in
  length tracks <= fuel ->
  exists fairQueue w' rounds,
    applyFairPlayToQueue fuel w = Some (Returned fairQueue, w') /\
    fairQueue = concat rounds /\
    (forall r round, rounds !! r = Some round ->
       round <> [] /\
       NoDup (requesterOf <$> round) /\
       requesterOf <$> round =
         filter (fun k => r < length (tracksOf k tracks))
                (firstAppearances (requesterOf <$> tracks)) /\
       forall t, t ∈ round -> tracksOf (requesterOf t) tracks !! r = Some t) /\
    (forall pre t1 mid t2 post X,
       fairQueue = pre ++ t1 :: mid ++ t2 :: post ->
       requesterOf t1 = requesterOf t2 ->
       tracksOf (requesterOf t1) mid = [] ->
       X <> requesterOf t1 ->
       tracksOf X (mid ++ post) <> [] ->
       length (tracksOf X mid) = 1).
Proof.
  intros tracks requesterOf Hfuel.
  set (groups := groupByRequester tracks).
  exists (concat (roundAt groups <$> seq 0 (numRounds groups))).
  eexists. exists (roundAt groups <$> seq 0 (numRounds groups)).
  split; [by apply applyFairPlayToQueue_enough|]. split; [done|].
  pose proof (groupsOf_groupByRequester tracks) as Hgs. fold groups in Hgs.
  split.
  - intros r round Hr. rewrite list_lookup_fmap in Hr.
    destruct (seq 0 (numRounds groups) !! r) as [r'|] eqn:Hseq; [|done].
    apply lookup_seq in Hseq as [-> Hlt]. injection Hr as <-. simpl.
    assert (requesterOf <$> roundAt groups r =
            filter (fun k => r < length (tracksOf k tracks))
              (firstAppearances (requesterOf <$> tracks))) as Hreq.
    { unfold requesterOf. rewrite (requesters_roundAt tracks) by done.
      unfold groups. by rewrite keys_groupByRequester. }
    split_and!.
    + by apply roundAt_nonempty.
    + rewrite Hreq. apply NoDup_filter.
      rewrite <- keys_groupByRequester. apply groupByRequester_NoDup.
    + done.
    + intros t Ht. apply list_elem_of_omap in Ht as ([k g] & Hin & Hl).
      simpl in Hl. destruct Hgs as [_ Hg]. rewrite (Hg _ _ Hin) in Hl.
      pose proof (list_elem_of_lookup_2 _ _ _ Hl) as Ht.
      apply list_elem_of_filter in Ht as [Ht _]. unfold requesterOf.
      by rewrite Ht.
  - intros pre t1 mid t2 post X Hout HR Hmid HX Hrem.
    by eapply (between_consecutive tracks (numRounds groups)).
Qed.

(** C10. The round-robin loop terminates.  The group sizes sum to the
    input length; at the head of the [while], after any number of passes,
    if fewer tracks have been appended than the input holds, the next
    pass appends at least one (and never more than the input holds); so
    the loop, and with it the function, returns within as many passes as
    the input has tracks. *)
Theorem applyFairPlayToQueue_terminates (w : World) :
  let tracks := queue_tracks (player w) in
  let groups := groupByRequester tracks in
  let start := {| fairQueue := [];
                  requesterIndices := initIndices groups;
                  tracksAdded := 0 |} in
  sum_list ((fun e => length e.2) <$> groups) = length tracks /\
  (forall passes,
     let st := Nat.iter passes (fairPass groups) start in
     tracksAdded st < length tracks ->
     tracksAdded st < tracksAdded (fairPass groups st) <= length tracks) /\
  (forall fuel, length tracks <= fuel ->
     is_Some (fairLoop fuel (length tracks) groups start) /\
     is_Some (applyFairPlayToQueue fuel w)).
Proof.
  intros tracks groups start.
  pose proof (groupByRequester_NoDup tracks) as Hnd. fold groups in Hnd.
  pose proof (totalLen_groupByRequester tracks) as Htot. fold groups in Htot.
  split_and!.
  - exact Htot.
  - intros passes. unfold start, groups. rewrite iter_fairPass. fold groups.
    rewrite fairPass_spec by done. simpl. intros Hlt.
    rewrite <- Htot in *. apply addedAt_lt in Hlt.
    split; [by apply addedAt_step | apply addedAt_le].
  - intros fuel Hfuel. split.
    + unfold start. rewrite initIndices_spec by done.
      rewrite <- (stateAt_0 groups), <- Htot.
      rewrite fairLoop_spec by (done || lia).
      pose proof (numRounds_le groups).
      rewrite decide_True by lia. done.
    + rewrite applyFairPlayToQueue_enough by done. done.
Qed.

(** C4, as the code has it.  [applyFairPlayToQueue] computes the ordering
    from the tracks of the queue alone, and then itself replaces the
    contents of the queue: it splices out every track, adds the fair queue
    in one call, and returns it.  Nothing else of the player changes. *)
Theorem applyFairPlayToQueue_replaces_queue (fuel : nat) (w : World) :
  length (queue_tracks (player w)) <= fuel ->
  exists fairQueue,
    buildFairQueue fuel (queue_tracks (player w)) = Some fairQueue /\
    applyFairPlayToQueue fuel w =
    Some (Returned fairQueue,
          {| player := {| autoplay := autoplay (player w);
                          playing := playing (player w);
                          queue_tracks := fairQueue |};
             trace := trace w ++
                      [EQueueSplice 0 (length (queue_tracks (player w)));
                       EQueueAdd fairQueue] |}).
Proof.
  intros Hfuel. eexists. split; [by apply buildFairQueue_enough|].
  by apply applyFairPlayToQueue_enough.
Qed.

(** ** Running asynchronous code *)

Lemma bind_run {A B} (c : Async A) (f : A -> Async B) (w : World) :
  (c ≫= f) w =
  match c w with
  | (Returned a, w') => f a w'
  | (Thrown, w') => (Thrown, w')
  end.
Proof. reflexivity. Qed.

Lemma bind_returned {A B} (c : Async A) (f : A -> Async B) w a w' :
  c w = (Returned a, w') -> (c ≫= f) w = f a w'.
Proof. intros Hc. by rewrite bind_run, Hc. Qed.

Lemma onlyCalls_refl w : onlyCalls w w.
Proof. split; [done|]. exists []. by rewrite app_nil_r. Qed.

Lemma onlyCalls_trans w1 w2 w3 :
  onlyCalls w1 w2 -> onlyCalls w2 w3 -> onlyCalls w1 w3.
Proof.
  intros [Hp1 (c1 & Ht1 & Hc1)] [Hp2 (c2 & Ht2 & Hc2)].
  split; [congruence|]. exists (c1 ++ c2).
  split; [by rewrite Ht2, Ht1, (assoc_L (++)) | by apply Forall_app].
Qed.

Lemma onlyCalls_emit w e :
  isServiceCall e ->
  onlyCalls w {| player := player w; trace := trace w ++ [e] |}.
Proof. intros He. split; [done|]. exists [e]. split; [done|]. by constructor. Qed.

Section autoplay.
Context `{Collaborators}.

Lemma fetchUrl_calls url w c w' : fetchUrl url w = (c, w') -> onlyCalls w w'.
Proof.
  unfold fetchUrl. rewrite bind_run. cbn.
  destruct (fetch (trace w) url); intros [= <- <-]; by apply onlyCalls_emit.
Qed.

Lemma playerSearch_calls query source r w c w' :
  playerSearch query source r w = (c, w') -> onlyCalls w w'.
Proof.
  unfold playerSearch. rewrite bind_run. cbn.
  destruct (search (trace w) query source r); intros [= <- <-];
    by apply onlyCalls_emit.
Qed.

Lemma orThrow_run {A} (o : option A) w :
  orThrow o w = (match o with Some a => Returned a | None => Thrown end, w).
Proof. by destruct o. Qed.

Lemma lookupBody_calls a t w c w' : lookupBody a t w = (c, w') -> onlyCalls w w'.
Proof.
  unfold lookupBody. destruct LASTFM_API_KEY as [key|].
  2: { intros [= <- <-]. apply onlyCalls_refl. }
  destruct (bool_decide (key = "")).
  { intros [= <- <-]. apply onlyCalls_refl. }
  rewrite bind_run, orThrow_run.
  destruct (encodeURIComponent a) as [ea|].
  2: { intros [= <- <-]. apply onlyCalls_refl. }
  rewrite bind_run, orThrow_run.
  destruct (encodeURIComponent t) as [et|].
  2: { intros [= <- <-]. apply onlyCalls_refl. }
  cbn zeta. rewrite bind_run.
  destruct (fetchUrl (similarTracksUrl key ea et) w) as [[response|] w1] eqn:Hf;
    apply fetchUrl_calls in Hf.
  2: { by intros [= <- <-]. }
  unfold json. rewrite bind_run, orThrow_run.
  destruct response as [data|].
  2: { by intros [= <- <-]. }
  rewrite orThrow_run. by intros [= <- <-].
Qed.

(** The lookup never throws, whatever the services do. *)
Lemma getSimilarTracksFromLastFm_returns a t w :
  exists similarTracks w',
    getSimilarTracksFromLastFm a t w = (Returned similarTracks, w') /\
    onlyCalls w w'.
Proof.
  unfold getSimilarTracksFromLastFm, tryCatch.
  destruct (lookupBody a t w) as [[l|] w'] eqn:Hb; apply lookupBody_calls in Hb.
  - by exists l, w'.
  - by exists [], w'.
Qed.

(** A lookup that throws anywhere counts as an empty list. *)
Lemma getSimilarTracksFromLastFm_thrown a t w w' :
  lookupBody a t w = (Thrown, w') ->
  getSimilarTracksFromLastFm a t w = (Returned [], w').
Proof. intros Hb. unfold getSimilarTracksFromLastFm, tryCatch. by rewrite Hb. Qed.

Lemma searchFirst_returns lastTrack c w :
  exists r w', searchFirst lastTrack c w = (Returned r, w') /\ onlyCalls w w'.
Proof.
  unfold searchFirst, tryCatch. cbn zeta. rewrite bind_run.
  destruct (playerSearch _ _ _ w) as [[res|] w'] eqn:Hs;
    apply playerSearch_calls in Hs; by eexists _, _.
Qed.

Lemma mapM_searchFirst_returns lastTrack cs : forall w,
  exists rs w',
    mapM (searchFirst lastTrack) cs w = (Returned rs, w') /\ onlyCalls w w'.
Proof.
  induction cs as [|c cs IH]; intros w.
  - exists [], w. split; [done | apply onlyCalls_refl].
  - destruct (searchFirst_returns lastTrack c w) as (r & w1 & Hr & Hc1).
    destruct (IH w1) as (rs & w2 & Hrs & Hc2).
    exists (r :: rs), w2. split; [|by eapply onlyCalls_trans].
    cbn [mapM]. rewrite (bind_returned _ _ _ _ _ Hr).
    by rewrite (bind_returned _ _ _ _ _ Hrs).
Qed.

Lemma primarySearch_returns lastTrack similarTracks w :
  exists survivors w',
    primarySearch lastTrack similarTracks w = (Returned survivors, w') /\
    onlyCalls w w' /\
    Forall (fun t => isLyricsVersion t = false) survivors.
Proof.
  destruct (mapM_searchFirst_returns lastTrack (take 10 similarTracks) w)
    as (rs & w' & Hrs & Hc).
  eexists _, w'. unfold primarySearch.
  rewrite (bind_returned _ _ _ _ _ Hrs). split_and!; [done|done|].
  apply Forall_forall. by intros t [? _]%list_elem_of_filter.
Qed.

Lemma primarySearch_nil lastTrack w :
  primarySearch lastTrack [] w = (Returned [], w).
Proof. reflexivity. Qed.

Lemma fallbackLookup_returns lastTrack w :
  exists fallbackRes w',
    fallbackLookup lastTrack w = (Returned fallbackRes, w') /\ onlyCalls w w'.
Proof.
  unfold fallbackLookup, tryCatch. cbn zeta. rewrite bind_run.
  destruct (playerSearch _ _ _ w) as [[res|] w'] eqn:Hs;
    apply playerSearch_calls in Hs; by eexists _, _.
Qed.

(** What enqueueing does: one [add], then [play] if the player is idle
    and the queue is not empty. *)
Lemma addAndPlay_run tracks w :
  let added := {| autoplay := autoplay (player w);
                  playing := playing (player w);
                  queue_tracks := queue_tracks (player w) ++ tracks |} in
  addAndPlay tracks w =
  (Returned tt,
   if negb (playing (player w)) && (0 <? length (queue_tracks (player w) ++ tracks))
   then {| player := play added; trace := trace w ++ [EQueueAdd tracks; EPlay] |}
   else {| player := added; trace := trace w ++ [EQueueAdd tracks] |}).
Proof.
  unfold addAndPlay, queueAdd, playerPlay.
  cbv [mbind mret Async_bind Async_ret getPlayer setPlayer emit].
  cbn [player trace autoplay playing queue_tracks].
  destruct (negb (playing (player w)) &&
            (0 <? length (queue_tracks (player w) ++ tracks)));
    cbn [player trace]; [|done].
  by rewrite <- (assoc_L (++)).
Qed.
End autoplay.

(** ** The two paths of autoPlayFunction *)

Section autoplay_paths.
Context `{Collaborators}.

Lemma fallbackSearch_run lastTrack w fallbackRes w' :
  fallbackLookup lastTrack w = (Returned fallbackRes, w') ->
  fallbackSearch lastTrack w =
  match usableOf fallbackRes with
  | [] => (Returned tt, w')
  | _ :: _ => addAndPlay (markFromAutoplay <$> take 3 (usableOf fallbackRes)) w'
  end.
Proof.
  intros Hl. unfold fallbackSearch. rewrite (bind_returned _ _ _ _ _ Hl).
  destruct fallbackRes as [[ts]|]; simpl; [|done].
  destruct ts as [|t ts]; [done|].
  destruct (filter _ (t :: ts)) as [|u us]; done.
Qed.

Lemma autoPlayFunction_run lastTrack w similarTracks w1 survivors w2 :
  autoplay (player w) = true ->
  getSimilarTracksFromLastFm (author (info lastTrack)) (title (info lastTrack)) w
    = (Returned similarTracks, w1) ->
  primarySearch lastTrack similarTracks w1 = (Returned survivors, w2) ->
  autoPlayFunction (Some lastTrack) w =
  match survivors with
  | [] => fallbackSearch lastTrack w2
  | _ :: _ => addAndPlay (markFromAutoplay <$> take 10 survivors) w2
  end.
Proof.
  intros Hauto Hsim Hprim. unfold autoPlayFunction.
  rewrite bind_run. cbn [getPlayer]. rewrite Hauto. cbn [negb].
  rewrite (bind_returned _ _ _ _ _ Hsim).
  destruct similarTracks as [|c cs].
  - rewrite primarySearch_nil in Hprim. by injection Hprim as <- <-.
  - cbn [length Nat.ltb Nat.leb]. rewrite (bind_returned _ _ _ _ _ Hprim).
    by destruct survivors.
Qed.

Lemma autoPlayFunction_off lastTrack w :
  autoplay (player w) = false \/ lastTrack = None ->
  autoPlayFunction lastTrack w = (Returned tt, w).
Proof.
  unfold autoPlayFunction. rewrite bind_run. cbn [getPlayer].
  intros [-> | ->]; [done|]. by destruct (negb (autoplay (player w))).
Qed.

Lemma enqueueable_fmap (l : list Track) n :
  Forall (fun t => isLyricsVersion t = false) l ->
  Forall enqueueable (markFromAutoplay <$> take n l).
Proof.
  intros Hl. apply Forall_fmap, Forall_take.
  eapply Forall_impl; [exact Hl|]. intros t Ht. by exists t.
Qed.

(** The fallback path: service calls, then at most one enqueueing, of at
    most 3 tracks. *)
Lemma fallbackSearch_shape lastTrack w :
  exists w1, onlyCalls w w1 /\
    (fallbackSearch lastTrack w = (Returned tt, w1) \/
     exists ts, ts <> [] /\ length ts <= 3 /\ Forall enqueueable ts /\
                fallbackSearch lastTrack w = addAndPlay ts w1).
Proof.
  destruct (fallbackLookup_returns lastTrack w) as (fres & w1 & Hl & Hc).
  exists w1. split; [done|]. rewrite (fallbackSearch_run _ _ _ _ Hl).
  destruct (usableOf fres) as [|t ts] eqn:Hu; [by left|]. right.
  exists (markFromAutoplay <$> take 3 (t :: ts)). split_and!; [done| | |done].
  - rewrite length_fmap, length_take. lia.
  - rewrite <- Hu. apply enqueueable_fmap. apply Forall_forall.
    destruct fres as [res|]; [|done]. by intros u [? _]%list_elem_of_filter.
Qed.

(** The whole pipeline: service calls, then at most one enqueueing. *)
Lemma autoPlayFunction_shape lastTrack w :
  exists w1, onlyCalls w w1 /\
    (autoPlayFunction lastTrack w = (Returned tt, w1) \/
     exists ts, ts <> [] /\ Forall enqueueable ts /\
                autoPlayFunction lastTrack w = addAndPlay ts w1).
Proof.
  destruct (autoplay (player w)) eqn:Hauto, lastTrack as [lastTrack|];
    try (exists w; split; [apply onlyCalls_refl|]; left;
         apply autoPlayFunction_off; auto; fail).
  destruct (getSimilarTracksFromLastFm_returns
              (author (info lastTrack)) (title (info lastTrack)) w)
    as (sim & w1 & Hsim & Hc1).
  destruct (primarySearch_returns lastTrack sim w1) as (surv & w2 & Hp & Hc2 & Hok).
  rewrite (autoPlayFunction_run _ _ _ _ _ _ Hauto Hsim Hp).
  pose proof (onlyCalls_trans _ _ _ Hc1 Hc2) as Hc12.
  destruct surv as [|t ts].
  - destruct (fallbackSearch_shape lastTrack w2) as (w3 & Hc3 & Hf).
    exists w3. split; [by eapply onlyCalls_trans|].
    destruct Hf as [Hf | (ts & Hne & _ & Hts & Hf)]; [by left|].
    right. by exists ts.
  - exists w2. split; [done|]. right.
    exists (markFromAutoplay <$> take 10 (t :: ts)). split_and!; [done| |done].
    by apply enqueueable_fmap.
Qed.


Lemma addAndPlay_trace tracks w :
  exists plays,
    trace (snd (addAndPlay tracks w)) = trace w ++ EQueueAdd tracks :: plays /\
    (plays = [] \/ plays = [EPlay]).
Proof.
  rewrite addAndPlay_run. cbn [snd].
  destruct (negb _ && _); cbn [trace]; eauto.
Qed.

(** What an [add] among the new events carried. *)
Lemma added_after_calls w w1 ts evs tracks :
  onlyCalls w w1 ->
  trace (snd (addAndPlay ts w1)) = trace w ++ evs ->
  EQueueAdd tracks ∈ evs -> tracks = ts.
Proof.
  intros [_ (calls & Ht & Hcalls)] Hevs Hin.
  destruct (addAndPlay_trace ts w1) as (plays & Htr & Hplays).
  rewrite Htr, Ht, <- (assoc_L (++)) in Hevs. apply app_inv_head in Hevs.
  subst evs. apply elem_of_app in Hin as [Hin|Hin].
  - rewrite Forall_forall in Hcalls. destruct (Hcalls _ Hin).
  - apply elem_of_cons in Hin as [[= ->]|Hin]; [done|].
    destruct Hplays as [-> | ->]; [by apply elem_of_nil in Hin|].
    by apply list_elem_of_singleton in Hin.
Qed.

Lemma nothing_added_by_calls w w1 evs tracks :
  onlyCalls w w1 -> trace w1 = trace w ++ evs -> EQueueAdd tracks ∉ evs.
Proof.
  intros [_ (calls & Ht & Hcalls)] Hevs Hin.
  rewrite Ht in Hevs. apply app_inv_head in Hevs. subst evs.
  rewrite Forall_forall in Hcalls. destruct (Hcalls _ Hin).
Qed.

Lemma title_markFromAutoplay t : title (info (markFromAutoplay t)) = title (info t).
Proof. reflexivity. Qed.
End autoplay_paths.

(** ** Ways the recommendation lookup fails *)

Lemma markFromAutoplay_markedCopyOf t : markedCopyOf (markFromAutoplay t) t.
Proof.
  split_and!; [done|done|]. eexists _, _. split_and!; [done|done| | |].
  - apply lookup_insert_eq.
  - intros k Hk. rewrite lookup_insert_ne by done.
    destruct (pluginInfo t) as [[[cd|] rest]|]; simpl; done.
  - by destruct (pluginInfo t).
Qed.


Section lookup_failure.
Context `{Collaborators}.

Lemma fetchUrl_run url w :
  fetchUrl url w =
  (match fetch (trace w) url with Some r => Returned r | None => Thrown end,
   {| player := player w; trace := trace w ++ [EFetch url] |}).
Proof. unfold fetchUrl. rewrite bind_run. cbn. by destruct (fetch _ _). Qed.

End lookup_failure.

(** ** The autoplay pipeline: claims *)

Section autoplay_claims.
Context `{Collaborators}.

(** C5. With autoplay disabled, or without a last track,
    [autoPlayFunction] is a no-op: it returns and leaves the world as it
    was, so it made no call to the recommendation or the search service,
    no change to the queue and no start of playback. *)
Theorem autoPlayFunction_noop (lastTrack : option Track) (w : World) :
  autoplay (player w) = false \/ lastTrack = None ->
  autoPlayFunction lastTrack w = (Returned tt, w).
Proof. apply autoPlayFunction_off. Qed.


(** C7. When no acceptable candidate is left on either path (nothing
    survives the filters of the primary path, and the fallback search
    fails or leaves nothing after the lyrics filter), [autoPlayFunction]
    returns with the player, and so the queue, as it was: what it did were
    service calls only, no [add] and no [play]. *)
Theorem autoPlayFunction_no_candidates (lastTrack : Track) (w : World)
    (similarTracks : list Candidate) (w1 w2 : World)
    (fallbackRes : option SearchResult) (w3 : World) :
  getSimilarTracksFromLastFm
    (author (info lastTrack)) (title (info lastTrack)) w
    = (Returned similarTracks, w1) ->
  primarySearch lastTrack similarTracks w1 = (Returned [], w2) ->
  fallbackLookup lastTrack w2 = (Returned fallbackRes, w3) ->
  usableOf fallbackRes = [] ->
  exists w',
    autoPlayFunction (Some lastTrack) w = (Returned tt, w') /\
    player w' = player w /\
    queue_tracks (player w') = queue_tracks (player w) /\
    exists calls, trace w' = trace w ++ calls /\ Forall isServiceCall calls.
Proof.
  intros Hsim Hprim Hfall Husable.
  destruct (autoplay (player w)) eqn:Hauto.
  - exists w3. rewrite (autoPlayFunction_run _ _ _ _ _ _ Hauto Hsim Hprim).
    rewrite (fallbackSearch_run _ _ _ _ Hfall), Husable.
    assert (onlyCalls w w3) as [Hp Hc].
    { destruct (getSimilarTracksFromLastFm_returns
                  (author (info lastTrack)) (title (info lastTrack)) w)
        as (? & ? & Hsim' & Hc1).
      rewrite Hsim in Hsim'. injection Hsim' as <- <-.
      destruct (primarySearch_returns lastTrack similarTracks w1)
        as (? & ? & Hprim' & Hc2 & _).
      rewrite Hprim in Hprim'. injection Hprim' as <- <-.
      destruct (fallbackLookup_returns lastTrack w2) as (? & ? & Hfall' & Hc3).
      rewrite Hfall in Hfall'. injection Hfall' as <- <-.
      eauto using onlyCalls_trans. }
    split_and!; [done|done|by rewrite Hp|done].
  - exists w. rewrite autoPlayFunction_off by auto.
    split_and!; [done|done|done|]. exists []. by rewrite app_nil_r.
Qed.

(** C8. Every track [autoPlayFunction] enqueues, on either path, has a
    title that in lower case contains neither "lyrics" nor "lyric". *)
Theorem autoPlayFunction_enqueues_no_lyrics (lastTrack : option Track)
    (w : World) (evs : list Event) (tracks : list Track) (t : Track) :
  trace (autoPlayFunction lastTrack w).2 = trace w ++ evs ->
  EQueueAdd tracks ∈ evs ->
  t ∈ tracks ->
  includes (toLowerCase (title (info t))) "lyrics" = false /\
  includes (toLowerCase (title (info t))) "lyric" = false.
Proof.
  intros Htrace Hadd Ht.
  destruct (autoPlayFunction_shape lastTrack w)
    as (w1 & Hc & [Hrun | (ts & _ & Hts & Hrun)]); rewrite Hrun in Htrace.
  - destruct (nothing_added_by_calls _ _ _ _ Hc Htrace Hadd).
  - rewrite (added_after_calls _ _ _ _ _ Hc Htrace Hadd) in Ht.
    rewrite Forall_forall in Hts. destruct (Hts _ Ht) as (t0 & -> & Hl).
    rewrite title_markFromAutoplay. unfold isLyricsVersion in Hl.
    by apply orb_false_iff in Hl.
Qed.

(** C9. When nothing is enqueued on the primary path and the fallback
    search leaves 1 to 3 tracks after the lyrics filter,
    [autoPlayFunction] enqueues exactly these, in their order, each with
    the autoplay mark merged into the client data it had; and the
    fallback path never enqueues more than 3 tracks. *)
Theorem autoPlayFunction_fallback_enqueues (lastTrack : Track) (w : World)
    (similarTracks : list Candidate) (w1 w2 : World)
    (fallbackRes : option SearchResult) (w3 : World) :
  autoplay (player w) = true ->
  getSimilarTracksFromLastFm
    (author (info lastTrack)) (title (info lastTrack)) w
    = (Returned similarTracks, w1) ->
  primarySearch lastTrack similarTracks w1 = (Returned [], w2) ->
  fallbackLookup lastTrack w2 = (Returned fallbackRes, w3) ->
  1 <= length (usableOf fallbackRes) <= 3 ->
  (exists enqueued plays,
     Forall2 markedCopyOf enqueued (usableOf fallbackRes) /\
     autoPlayFunction (Some lastTrack) w = addAndPlay enqueued w3 /\
     trace (autoPlayFunction (Some lastTrack) w).2
       = trace w3 ++ EQueueAdd enqueued :: plays /\
     (plays = [] \/ plays = [EPlay]) /\
     let added := {| autoplay := autoplay (player w3);
                     playing := playing (player w3);
                     queue_tracks := queue_tracks (player w3) ++ enqueued |} in
     player (autoPlayFunction (Some lastTrack) w).2
       = if negb (playing (player w3)) then play added else added) /\
  (forall lastTrack0 w0 evs tracks,
     trace (fallbackSearch lastTrack0 w0).2 = trace w0 ++ evs ->
     EQueueAdd tracks ∈ evs -> length tracks <= 3).
Proof.
  intros Hauto Hsim Hprim Hfall Hlen. split.
  - exists (markFromAutoplay <$> usableOf fallbackRes).
    assert (autoPlayFunction (Some lastTrack) w
            = addAndPlay (markFromAutoplay <$> usableOf fallbackRes) w3) as Hrun.
    { rewrite (autoPlayFunction_run _ _ _ _ _ _ Hauto Hsim Hprim).
      rewrite (fallbackSearch_run _ _ _ _ Hfall).
      destruct (usableOf fallbackRes) as [|t ts] eqn:Hu; [simpl in Hlen; lia|].
      by rewrite take_ge by lia. }
    destruct (addAndPlay_trace (markFromAutoplay <$> usableOf fallbackRes) w3)
      as (plays & Htr & Hplays).
    exists plays. split_and!; [|done|by rewrite Hrun|done|].
    + apply Forall2_fmap_l, Forall_Forall2_diag, Forall_forall.
      intros t _. apply markFromAutoplay_markedCopyOf.
    + rewrite Hrun, addAndPlay_run. cbn [snd].
      rewrite length_app, length_fmap.
      destruct (negb (playing (player w3))); [|done].
      assert ((0 <? length (queue_tracks (player w3))
                    + length (usableOf fallbackRes)) = true) as ->;
        [apply Nat.ltb_lt; lia | done].
  - intros lastTrack0 w0 evs tracks Htrace Hadd.
    destruct (fallbackSearch_shape lastTrack0 w0)
      as (w' & Hc & [Hrun | (ts & _ & Hle & _ & Hrun)]); rewrite Hrun in Htrace.
    + destruct (nothing_added_by_calls _ _ _ _ Hc Htrace Hadd).
    + by rewrite (added_after_calls _ _ _ _ _ Hc Htrace Hadd).
Qed.
End autoplay_claims.

(** ** Concrete runs *)

Lemma applyFairPlayToQueue_permutation_witness :
  exists fairQueue w',
    applyFairPlayToQueue 4 (startOf (idlePlayer false sharedQueue))
      = Some (Returned fairQueue, w') /\
    fairQueue ≡ₚ sharedQueue /\ length fairQueue = length sharedQueue.
Proof.
  apply (applyFairPlayToQueue_permutation 4 (startOf (idlePlayer false sharedQueue))).
  simpl. lia.
Defined.

Lemma applyFairPlayToQueue_requester_order_witness :
  exists fairQueue w',
    applyFairPlayToQueue 4 (startOf (idlePlayer false sharedQueue))
      = Some (Returned fairQueue, w') /\
    filter (fun t => id (requester t) = "A") fairQueue
    = filter (fun t => id (requester t) = "A") sharedQueue.
Proof.
  apply (applyFairPlayToQueue_requester_order 4
           (startOf (idlePlayer false sharedQueue)) "A").
  simpl. lia.
Defined.

Lemma applyFairPlayToQueue_rounds_witness :
  exists fairQueue w' rounds,
    applyFairPlayToQueue 4 (startOf (idlePlayer false sharedQueue))
      = Some (Returned fairQueue, w') /\
    fairQueue = concat rounds.
Proof.
  destruct (applyFairPlayToQueue_rounds 4 (startOf (idlePlayer false sharedQueue)))
    as (fairQueue & w' & rounds & Hrun & Hcat & _).
  - simpl. lia.
  - by exists fairQueue, w', rounds.
Defined.

Lemma applyFairPlayToQueue_terminates_witness :
  is_Some (applyFairPlayToQueue 4 (startOf (idlePlayer false sharedQueue))).
Proof.
  apply (applyFairPlayToQueue_terminates (startOf (idlePlayer false sharedQueue))).
  simpl. lia.
Defined.

Lemma applyFairPlayToQueue_replaces_queue_witness :
  exists fairQueue,
    buildFairQueue 4 sharedQueue = Some fairQueue /\
    applyFairPlayToQueue 4 (startOf (idlePlayer false sharedQueue)) =
    Some (Returned fairQueue,
          {| player := idlePlayer false fairQueue;
             trace := [EQueueSplice 0 4; EQueueAdd fairQueue] |}).
Proof.
  apply (applyFairPlayToQueue_replaces_queue 4
           (startOf (idlePlayer false sharedQueue))).
  simpl. lia.
Defined.

(** C4, as stated, fails: on a queue that is not yet fair the function
    itself splices the queue and adds the fair queue, and the queue it
    leaves is not the one it found. *)
Lemma applyFairPlayToQueue_mutates_queue :
  let w := startOf (idlePlayer false
                      [mkTrack "A" "a1"; mkTrack "A" "a2"; mkTrack "B" "b1"]) in
  exists fairQueue w',
    applyFairPlayToQueue 3 w = Some (Returned fairQueue, w') /\
    queue_tracks (player w') <> queue_tracks (player w) /\
    trace w' = [EQueueSplice 0 3; EQueueAdd fairQueue].
Proof.
  eexists _, _. split; [vm_compute; reflexivity|]. split; [|reflexivity].
  simpl. intros Heq. discriminate Heq.
Qed.

Lemma autoPlayFunction_noop_witness :
  autoPlayFunction (H := lastFmDown) (Some (mkTrack "u" "last"))
    (startOf (idlePlayer false []))
  = (Returned tt, startOf (idlePlayer false [])).
Proof.
  apply (@autoPlayFunction_noop lastFmDown). left. reflexivity.
Defined.



Lemma autoPlayFunction_no_candidates_witness :
  let w := startOf (idlePlayer true []) in
  exists w',
    autoPlayFunction (H := lyricsOnly) (Some (mkTrack "u" "last")) w
      = (Returned tt, w') /\
    player w' = player w /\
    queue_tracks (player w') = queue_tracks (player w) /\
    exists calls, trace w' = trace w ++ calls /\ Forall isServiceCall calls.
Proof.
  set (w := startOf (idlePlayer true [])).
  set (lastTrack := mkTrack "u" "last").
  set (w1 := (getSimilarTracksFromLastFm (H := lyricsOnly) "artist" "last" w).2).
  set (w3 := (fallbackLookup (H := lyricsOnly) lastTrack w1).2).
  apply (@autoPlayFunction_no_candidates lyricsOnly lastTrack w [] w1 w1
           (Some {| res_tracks := [mkTrack "bot" "Song (Official Lyric Video)"] |})
           w3); vm_compute; reflexivity.
Defined.

Lemma autoPlayFunction_enqueues_no_lyrics_witness :
  includes (toLowerCase "Hit two") "lyrics" = false /\
  includes (toLowerCase "Hit two") "lyric" = false.
Proof.
  set (w := startOf (idlePlayer true [])).
  set (lastTrack := mkTrack "u" "last").
  set (enqueued := [markFromAutoplay (mkTrack "bot" "Hit one");
                    markFromAutoplay (mkTrack "bot" "Hit two")]).
  apply (@autoPlayFunction_enqueues_no_lyrics lastFmDown (Some lastTrack) w
           [EFetch (similarTracksUrl "key" "artist" "last");
            ESearch "artist popular songs" "ytmsearch" (requester lastTrack);
            EQueueAdd enqueued; EPlay]
           enqueued (markFromAutoplay (mkTrack "bot" "Hit two"))).
  - vm_compute. reflexivity.
  - apply (list_elem_of_lookup_2 _ 2). reflexivity.
  - apply (list_elem_of_lookup_2 _ 1). reflexivity.
Defined.

Lemma autoPlayFunction_fallback_enqueues_witness :
  let w := startOf (idlePlayer true []) in
  let lastTrack := mkTrack "u" "last" in
  exists enqueued,
    Forall2 markedCopyOf enqueued [mkTrack "bot" "Hit one"; mkTrack "bot" "Hit two"] /\
    exists w3, autoPlayFunction (H := lastFmDown) (Some lastTrack) w
               = addAndPlay (H := lastFmDown) enqueued w3.
Proof.
  set (w := startOf (idlePlayer true [])).
  set (lastTrack := mkTrack "u" "last").
  set (w1 := (getSimilarTracksFromLastFm (H := lastFmDown) "artist" "last" w).2).
  set (res := {| res_tracks := [mkTrack "bot" "Hit one";
                                mkTrack "bot" "Hit one (Lyrics)";
                                mkTrack "bot" "Hit two"] |}).
  set (w3 := (fallbackLookup (H := lastFmDown) lastTrack w1).2).
  destruct (@autoPlayFunction_fallback_enqueues lastFmDown lastTrack w [] w1 w1
              (Some res) w3) as [(enqueued & plays & Hcopy & Hrun & _) _].
  - reflexivity.
  - vm_compute. reflexivity.
  - vm_compute. reflexivity.
  - vm_compute. reflexivity.
  - vm_compute. lia.
  - exists enqueued. split; [exact Hcopy|]. by exists w3.
Defined.

(** * Further properties of the fair-queue scheduler *)

(** The groups are the requesters in first-appearance order, each with
    its tracks. *)
Lemma groups_canonical {V} (f : string -> V) (m : list (string * V)) :
  (forall k v, (k, v) ∈ m -> v = f k) ->
  m = (fun k => (k, f k)) <$> JsMap.keys m.
Proof.
  unfold JsMap.keys. induction m as [|[k v] m IH]; intros Hm; [done|].
  csimpl. rewrite (Hm k v) by left. f_equal.
  apply IH. intros k' v' Hin. apply Hm. by right.
Qed.

Lemma groupByRequester_canonical tracks :
  groupByRequester tracks =
  (fun k => (k, tracksOf k tracks))
    <$> firstAppearances ((fun t => id (requester t)) <$> tracks).
Proof.
  rewrite <- keys_groupByRequester. apply groups_canonical.
  apply groupsOf_groupByRequester.
Qed.

Lemma firstAppearances_NoDup ks : NoDup ks -> firstAppearances ks = ks.
Proof.
  induction ks as [|k ks IH] using rev_ind; [done|].
  intros (Hks & Hk & _)%NoDup_app. rewrite firstAppearances_snoc.
  rewrite decide_False.
  - by rewrite IH.
  - intros Hin. apply (Hk k Hin). left.
Qed.

Lemma firstAppearances_known ks l :
  NoDup ks -> (forall x, x ∈ l -> x ∈ ks) -> firstAppearances (ks ++ l) = ks.
Proof.
  intros Hnd. induction l as [|x l IH] using rev_ind; intros Hl.
  - rewrite app_nil_r. by apply firstAppearances_NoDup.
  - rewrite (assoc_L (++)), firstAppearances_snoc.
    rewrite decide_True.
    + apply IH. intros y Hy. apply Hl, elem_of_app. by left.
    + apply elem_of_app. left. apply Hl, elem_of_app. right. left.
Qed.

Lemma filter_all {A} (P : A -> Prop) `{forall x, Decision (P x)} (l : list A) :
  Forall P l -> filter P l = l.
Proof.
  induction 1 as [|x l Hx _ IH]; [done|]. by rewrite filter_cons_True, IH.
Qed.

(** Grouping the fair queue gives the groups of the queue it came from. *)
Lemma groupByRequester_rounds tracks n :
  numRounds (groupByRequester tracks) <= n ->
  groupByRequester (concat (roundAt (groupByRequester tracks) <$> seq 0 n))
  = groupByRequester tracks.
Proof.
  intros Hn.
  set (out := concat (roundAt (groupByRequester tracks) <$> seq 0 n)).
  assert (out ≡ₚ tracks) as Hperm.
  { unfold out. rewrite rounds_perm by done. apply groupByRequester_perm. }
  assert (forall k, tracksOf k out = tracksOf k tracks) as Hof.
  { intros k. unfold out. rewrite tracksOf_rounds.
    apply take_ge. pose proof (tracksOf_length_le tracks k). lia. }
  rewrite (groupByRequester_canonical out), (groupByRequester_canonical tracks).
  assert (firstAppearances ((fun t => id (requester t)) <$> out)
          = firstAppearances ((fun t => id (requester t)) <$> tracks)) as ->.
  2: { apply list_fmap_ext. intros _ k _. by rewrite Hof. }
  destruct n as [|n].
  { unfold out in Hperm. simpl in Hperm.
    apply Permutation_nil_l in Hperm. by rewrite <- Hperm. }
  assert (exists rest,
            (fun t => id (requester t)) <$> out
            = JsMap.keys (groupByRequester tracks) ++ rest) as [rest Hout].
  { unfold out. rewrite <- cons_seq. csimpl. rewrite fmap_app.
    eexists. f_equal.
    rewrite (requesters_roundAt tracks) by apply groupsOf_groupByRequester.
    apply filter_all, Forall_forall.
    intros k ([k' g] & -> & Hin)%list_elem_of_fmap. simpl.
    apply groupByRequester_elem in Hin as [<- Hne].
    destruct g; [done | simpl; lia]. }
  rewrite Hout, <- keys_groupByRequester.
  apply firstAppearances_known; [apply groupByRequester_NoDup|].
  intros x Hx. rewrite keys_groupByRequester.
  apply elem_of_firstAppearances. rewrite <- Hperm, Hout.
  apply elem_of_app. by right.
Qed.

(** X1. Running the scheduler on the queue it has just made fair changes
    nothing: the second run returns the same fair queue and leaves the
    queue as the first run left it. *)
Theorem applyFairPlayToQueue_idempotent (fuel : nat) (w : World) :
  length (queue_tracks (player w)) <= fuel ->
  exists fairQueue w1 w2,
    applyFairPlayToQueue fuel w = Some (Returned fairQueue, w1) /\
    applyFairPlayToQueue fuel w1 = Some (Returned fairQueue, w2) /\
    queue_tracks (player w2) = queue_tracks (player w1).
Proof.
  intros Hfuel. set (tracks := queue_tracks (player w)) in *.
  set (out := concat (roundAt (groupByRequester tracks)
                        <$> seq 0 (numRounds (groupByRequester tracks)))).
  assert (length out = length tracks) as Hlen.
  { apply Permutation_length. unfold out. rewrite rounds_perm by done.
    apply groupByRequester_perm. }
  assert (groupByRequester out = groupByRequester tracks) as Hgroups
    by (by apply groupByRequester_rounds).
  pose proof (applyFairPlayToQueue_enough fuel w Hfuel) as Hrun1.
  cbn zeta in Hrun1. fold tracks in Hrun1. fold out in Hrun1.
  set (w1 := {| player := {| autoplay := autoplay (player w);
                             playing := playing (player w);
                             queue_tracks := out |};
                trace := trace w ++ [EQueueSplice 0 (length tracks);
                                     EQueueAdd out] |}) in *.
  assert (length (queue_tracks (player w1)) <= fuel) as Hfuel1
    by (simpl; lia).
  pose proof (applyFairPlayToQueue_enough fuel w1 Hfuel1) as Hrun2.
  cbn zeta in Hrun2. cbn [w1 player queue_tracks] in Hrun2.
  rewrite Hgroups in Hrun2. fold out in Hrun2.
  eexists _, _, _. split; [exact Hrun1|]. split; [exact Hrun2|]. done.
Qed.

(** X2. The output is balanced at every point: of two requesters who
    both still have a track to come, neither has been served more than
    one track more than the other. *)
Theorem applyFairPlayToQueue_balanced (fuel : nat) (w : World) :
  length (queue_tracks (player w)) <= fuel ->
  exists fairQueue w',
    applyFairPlayToQueue fuel w = Some (Returned fairQueue, w') /\
    forall served rest X Y,
      fairQueue = served ++ rest ->
      tracksOf X rest <> [] -> tracksOf Y rest <> [] ->
      length (tracksOf X served) <= length (tracksOf Y served) + 1.
Proof.
  intros Hfuel. set (tracks := queue_tracks (player w)) in *.
  eexists _, _. split; [by apply applyFairPlayToQueue_enough|].
  fold tracks. intros served rest X Y Hout HX HY.
  destruct rest as [|t q]; [done|].
  assert (forall Z, length (tracksOf Z served) + length (tracksOf Z (t :: q))
                    = length (tracksOf Z tracks)) as Htot.
  { intros Z. rewrite <- length_app, <- tracksOf_app, <- Hout.
    rewrite tracksOf_rounds, take_ge by apply tracksOf_length_le. done. }
  destruct (count_before tracks _ _ _ _ Hout) as (r & gs1 & g & gs2 & _ & _ & Hc).
  assert (forall Z, tracksOf Z (t :: q) <> [] ->
                    r <= length (tracksOf Z served) <= r + 1) as Hbounds.
  { intros Z HZ. pose proof (Htot Z) as HtZ. pose proof (Hc Z) as HcZ.
    assert (0 < length (tracksOf Z (t :: q)))
      by (destruct (tracksOf Z (t :: q)); [done | simpl; lia]).
    destruct (decide _) in HcZ; lia. }
  pose proof (Hbounds X HX). pose proof (Hbounds Y HY). lia.
Qed.

Lemma rounds_head first others :
  exists rest,
    concat (roundAt (groupByRequester (first :: others))
              <$> seq 0 (numRounds (groupByRequester (first :: others))))
    = first :: rest.
Proof.
  assert (exists g gs, groupByRequester (first :: others)
                       = (id (requester first), first :: g) :: gs)
    as (g & gs & ->).
  { rewrite groupByRequester_canonical. csimpl. rewrite tracksOf_cons_eq.
    by eexists _, _. }
  assert (exists n, numRounds ((id (requester first), first :: g) :: gs) = S n)
    as [n ->].
  { simpl. destruct (numRounds gs); eexists; simpl; reflexivity. }
  rewrite <- cons_seq. csimpl. by eexists.
Qed.

(** X3. The track at the head of the queue stays at the head. *)
Theorem applyFairPlayToQueue_keeps_head (fuel : nat) (w : World)
    (first : Track) (others : list Track) :
  queue_tracks (player w) = first :: others ->
  length (queue_tracks (player w)) <= fuel ->
  exists rest w',
    applyFairPlayToQueue fuel w = Some (Returned (first :: rest), w').
Proof.
  intros Hq Hfuel. rewrite applyFairPlayToQueue_enough by done. cbn zeta.
  rewrite Hq. destruct (rounds_head first others) as [rest ->].
  by eexists _, _.
Qed.

(** X4. The loop makes as many passes as the busiest requester has
    tracks: the function returns within [fuel] passes exactly when no
    requester has more than [fuel] tracks in the queue. *)
Theorem applyFairPlayToQueue_passes (fuel : nat) (w : World) :
  is_Some (applyFairPlayToQueue fuel w) <->
  forall R, length (tracksOf R (queue_tracks (player w))) <= fuel.
Proof.
  set (tracks := queue_tracks (player w)).
  unfold applyFairPlayToQueue. fold tracks. rewrite buildFairQueue_spec.
  cbn zeta. split.
  - destruct (decide (numRounds (groupByRequester tracks) <= fuel));
      [|by intros [? ?]].
    intros _ R. pose proof (tracksOf_length_le tracks R). lia.
  - intros Hall. rewrite decide_True; [done|].
    pose proof (groupsOf_groupByRequester tracks) as [_ Hg].
    induction (groupByRequester tracks) as [|[k g] gs IH]; simpl; [lia|].
    apply Nat.max_lub.
    + rewrite (Hg k g) by left. apply Hall.
    + apply IH. intros k' g' Hin. apply Hg. by right.
Qed.

(** X5. A queue whose tracks all come from one requester (the empty
    queue among them) is returned, and left, as it is. *)
Theorem applyFairPlayToQueue_single_requester (fuel : nat) (w : World)
    (R : string) :
  length (queue_tracks (player w)) <= fuel ->
  Forall (fun t => id (requester t) = R) (queue_tracks (player w)) ->
  exists w',
    applyFairPlayToQueue fuel w = Some (Returned (queue_tracks (player w)), w') /\
    queue_tracks (player w') = queue_tracks (player w).
Proof.
  intros Hfuel Hall.
  pose proof (buildFairQueue_single_requester fuel _ R Hfuel Hall) as Hb.
  rewrite buildFairQueue_enough in Hb by done. injection Hb as Hb.
  rewrite applyFairPlayToQueue_enough by done. cbn zeta.
  rewrite Hb. by eexists.
Qed.

(** * Further properties of the autoplay pipeline *)

Section autoplay_traces.
Context `{Collaborators}.

Lemma playerSearch_run query source r w :
  playerSearch query source r w =
  (match search (trace w) query source r with
   | Some res => Returned res
   | None => Thrown
   end,
   {| player := player w; trace := trace w ++ [ESearch query source r] |}).
Proof. unfold playerSearch. rewrite bind_run. cbn. by destruct (search _ _ _ _). Qed.

(** The lookup: at most the one fetch, and a list in any case. *)
Lemma getSimilarTracksFromLastFm_trace a t w :
  exists similarTracks w',
    getSimilarTracksFromLastFm a t w = (Returned similarTracks, w') /\
    player w' = player w /\
    trace w' = trace w ++ match lookupUrlOf a t with
                          | Some url => [EFetch url]
                          | None => []
                          end.
Proof.
  unfold getSimilarTracksFromLastFm, tryCatch, lookupBody, lookupUrlOf.
  destruct LASTFM_API_KEY as [key|].
  2: { exists [], w. by rewrite app_nil_r. }
  destruct (bool_decide (key = "")).
  { exists [], w. by rewrite app_nil_r. }
  rewrite bind_run, orThrow_run.
  destruct (encodeURIComponent a) as [ea|]; simpl.
  2: { exists [], w. by rewrite app_nil_r. }
  rewrite bind_run, orThrow_run.
  destruct (encodeURIComponent t) as [et|]; simpl.
  2: { exists [], w. by rewrite app_nil_r. }
  rewrite bind_run, fetchUrl_run.
  destruct (fetch (trace w) _) as [[data|]|]; unfold json;
    rewrite ?bind_run, ?orThrow_run; try (by eexists _, _).
  destruct (similarTracksOfData data); by eexists _, _.
Qed.

Lemma searchFirst_trace lastTrack c w :
  exists r w',
    searchFirst lastTrack c w = (Returned r, w') /\
    player w' = player w /\
    trace w' = trace w ++ [searchEventOf lastTrack c].
Proof.
  unfold searchFirst, tryCatch. cbn zeta. rewrite bind_run, playerSearch_run.
  destruct (search _ _ _ _); by eexists _, _.
Qed.

Lemma mapM_searchFirst_trace lastTrack cs : forall w,
  exists rs w',
    mapM (searchFirst lastTrack) cs w = (Returned rs, w') /\
    player w' = player w /\
    trace w' = trace w ++ (searchEventOf lastTrack <$> cs).
Proof.
  induction cs as [|c cs IH]; intros w.
  - exists [], w. by rewrite app_nil_r.
  - destruct (searchFirst_trace lastTrack c w) as (r & w1 & Hr & Hp1 & Ht1).
    destruct (IH w1) as (rs & w2 & Hrs & Hp2 & Ht2).
    exists (r :: rs), w2. split_and!.
    + cbn [mapM]. rewrite (bind_returned _ _ _ _ _ Hr).
      by rewrite (bind_returned _ _ _ _ _ Hrs).
    + congruence.
    + rewrite Ht2, Ht1, <- (assoc_L (++)). done.
Qed.

Lemma primarySearch_trace lastTrack similarTracks w :
  exists survivors w',
    primarySearch lastTrack similarTracks w = (Returned survivors, w') /\
    player w' = player w /\
    trace w' = trace w ++ (searchEventOf lastTrack <$> take 10 similarTracks).
Proof.
  destruct (mapM_searchFirst_trace lastTrack (take 10 similarTracks) w)
    as (rs & w' & Hrs & Hp & Ht).
  eexists _, w'. unfold primarySearch.
  by rewrite (bind_returned _ _ _ _ _ Hrs).
Qed.

Lemma fallbackLookup_trace lastTrack w :
  exists fallbackRes w',
    fallbackLookup lastTrack w = (Returned fallbackRes, w') /\
    player w' = player w /\
    trace w' = trace w ++
      [ESearch (author (info lastTrack) +:+ " popular songs") "ytmsearch"
               (requester lastTrack)].
Proof.
  unfold fallbackLookup, tryCatch. cbn zeta. rewrite bind_run, playerSearch_run.
  destruct (search _ _ _ _); by eexists _, _.
Qed.
End autoplay_traces.

Lemma searches_only (ss : list Event) :
  Forall isSearchEvent ss ->
  fetchesOf ss = [] /\ addsOf ss = [] /\ playsOf ss = [] /\ splicesOf ss = [] /\
  length (searchesOf ss) = length ss.
Proof.
  induction 1 as [|e ss He _ (IH1 & IH2 & IH3 & IH4 & IH5)]; [done|].
  destruct e; try done. unfold fetchesOf, addsOf, playsOf, splicesOf, searchesOf in *.
  csimpl. rewrite IH1, IH2, IH3, IH4, IH5. done.
Qed.

Lemma searchEvents_are_searches lastTrack cs :
  Forall isSearchEvent (searchEventOf lastTrack <$> cs).
Proof. apply Forall_fmap, Forall_forall. by intros c _. Qed.

Section autoplay_extras.
Context `{Collaborators}.

(** The new events of a run: at most one fetch, then at most 11
    searches, then at most one enqueueing of 1 to 10 tracks, with or
    without a [play] after it. *)
Lemma autoPlayFunction_events lastTrack w :
  exists fs ss tail,
    trace (autoPlayFunction lastTrack w).2 = trace w ++ fs ++ ss ++ tail /\
    (fs = [] \/ exists url, fs = [EFetch url]) /\
    (Forall isSearchEvent ss /\ length ss <= 11) /\
    (tail = [] \/
     exists ts, 1 <= length ts <= 10 /\
                (tail = [EQueueAdd ts] \/ tail = [EQueueAdd ts; EPlay])).
Proof.
  assert (autoplay (player w) = false \/ lastTrack = None ->
          exists fs ss tail,
            trace (autoPlayFunction lastTrack w).2 = trace w ++ fs ++ ss ++ tail /\
            (fs = [] \/ exists url, fs = [EFetch url]) /\
            (Forall isSearchEvent ss /\ length ss <= 11) /\
            (tail = [] \/
             exists ts, 1 <= length ts <= 10 /\
                        (tail = [EQueueAdd ts] \/ tail = [EQueueAdd ts; EPlay])))
    as Hoff.
  { intros Hoff. exists [], [], []. rewrite autoPlayFunction_off by done.
    simpl. rewrite app_nil_r. split_and!; auto. lia. }
  destruct (autoplay (player w)) eqn:Hauto, lastTrack as [lastTrack|]; auto.
  clear Hoff.
  destruct (getSimilarTracksFromLastFm_trace
              (author (info lastTrack)) (title (info lastTrack)) w)
    as (sim & w1 & Hsim & _ & Ht1).
  destruct (primarySearch_trace lastTrack sim w1) as (surv & w2 & Hp & _ & Ht2).
  rewrite (autoPlayFunction_run _ _ _ _ _ _ Hauto Hsim Hp).
  set (fs := match lookupUrlOf _ _ with Some url => [EFetch url] | None => [] end)
    in Ht1.
  assert (fs = [] \/ exists url, fs = [EFetch url]) as Hfs.
  { unfold fs. destruct (lookupUrlOf _ _); eauto. }
  assert (length (searchEventOf lastTrack <$> take 10 sim) <= 10) as Hlen.
  { rewrite length_fmap, length_take. lia. }
  pose proof (searchEvents_are_searches lastTrack (take 10 sim)) as Hss.
  destruct surv as [|t ts].
  - destruct (fallbackLookup_trace lastTrack w2) as (fres & w3 & Hl & _ & Ht3).
    rewrite (fallbackSearch_run _ _ _ _ Hl).
    exists fs, ((searchEventOf lastTrack <$> take 10 sim) ++
                [ESearch (author (info lastTrack) +:+ " popular songs")
                   "ytmsearch" (requester lastTrack)]).
    assert (Forall isSearchEvent
              ((searchEventOf lastTrack <$> take 10 sim) ++
               [ESearch (author (info lastTrack) +:+ " popular songs")
                  "ytmsearch" (requester lastTrack)])
            /\ length ((searchEventOf lastTrack <$> take 10 sim) ++
                       [ESearch (author (info lastTrack) +:+ " popular songs")
                          "ytmsearch" (requester lastTrack)]) <= 11) as Hall.
    { split; [apply Forall_app; split; [done | by constructor]|].
      rewrite length_app. simpl. lia. }
    destruct (usableOf fres) as [|u us] eqn:Hu.
    + exists []. cbn [snd]. rewrite Ht3, Ht2, Ht1, app_nil_r.
      rewrite <- !(assoc_L (++)). auto.
    + destruct (addAndPlay_trace (markFromAutoplay <$> take 3 (u :: us)) w3)
        as (plays & Htr & Hplays).
      exists (EQueueAdd (markFromAutoplay <$> take 3 (u :: us)) :: plays).
      rewrite Htr, Ht3, Ht2, Ht1, <- !(assoc_L (++)).
      split_and!; [done|done|apply Hall|apply Hall|]. right.
      eexists. split; [|destruct Hplays as [-> | ->]; eauto].
      rewrite length_fmap, length_take. cbn [length]. lia.
  - destruct (addAndPlay_trace (markFromAutoplay <$> take 10 (t :: ts)) w2)
      as (plays & Htr & Hplays).
    exists fs, (searchEventOf lastTrack <$> take 10 sim),
      (EQueueAdd (markFromAutoplay <$> take 10 (t :: ts)) :: plays).
    rewrite Htr, Ht2, Ht1, <- !(assoc_L (++)).
    split_and!; [done|done|done|lia|]. right.
    eexists. split; [|destruct Hplays as [-> | ->]; eauto].
    rewrite length_fmap, length_take. cbn [length]. lia.
Qed.


(** X7. Within one run [autoPlayFunction] makes at most one fetch, at
    most 11 searches, at most one [add], of 1 to 10 tracks, and at most
    one [play]; it never splices the queue. *)
Theorem autoPlayFunction_call_budget (lastTrack : option Track) (w : World)
    (evs : list Event) :
  trace (autoPlayFunction lastTrack w).2 = trace w ++ evs ->
  length (fetchesOf evs) <= 1 /\
  length (searchesOf evs) <= 11 /\
  length (addsOf evs) <= 1 /\
  length (playsOf evs) <= 1 /\
  splicesOf evs = [] /\
  Forall (fun tracks => 1 <= length tracks <= 10) (addsOf evs).
Proof.
  intros Htrace.
  destruct (autoPlayFunction_events lastTrack w)
    as (fs & ss & tail & Hev & Hfs & [Hss Hlen] & Htail).
  rewrite Htrace in Hev. apply app_inv_head in Hev. subst evs.
  destruct (searches_only ss Hss) as (Hs1 & Hs2 & Hs3 & Hs4 & Hs5).
  unfold fetchesOf, searchesOf, addsOf, playsOf, splicesOf in *.
  rewrite !omap_app, Hs1, Hs2, Hs3, Hs4, !length_app, Hs5.
  destruct Hfs as [-> | [url ->]],
           Htail as [-> | (ts & Hts & [-> | ->])]; simpl;
    split_and!; try lia; try done;
    first [apply Forall_nil | by apply Forall_cons; split; [lia | apply Forall_nil]].
Qed.
End autoplay_extras.

Section autoplay_extras_paths.
Context `{Collaborators}.


(** X9. For candidates as declared (artist and name strings) the primary
    path makes exactly one search per candidate among the first 10, in
    candidate order, for ["<artist> <name>"] in the source "ytmsearch"
    with the requester of the last track; a search that rejects stops
    neither the others nor the function. *)
Theorem primarySearch_searches (lastTrack : Track)
    (similarTracks : list Candidate) (w : World) :
  Forall declaredCandidate similarTracks ->
  exists survivors w' searches,
    primarySearch lastTrack similarTracks w = (Returned survivors, w') /\
    player w' = player w /\
    trace w' = trace w ++ searches /\
    Forall2 (fun e c => exists a n,
               artist c = JStr a /\ name c = JStr n /\
               e = ESearch (a +:+ " " +:+ n) "ytmsearch" (requester lastTrack))
            searches (take 10 similarTracks).
Proof.
  intros Hdecl.
  destruct (primarySearch_trace lastTrack similarTracks w)
    as (surv & w' & Hp & Hpl & Ht).
  exists surv, w', (searchEventOf lastTrack <$> take 10 similarTracks).
  split_and!; [done|done|done|].
  apply Forall2_fmap_l, Forall_Forall2_diag.
  apply Forall_take with (n := 10) in Hdecl.
  eapply Forall_impl; [exact Hdecl|].
  intros c (a & n & Ha & Hn). exists a, n. split_and!; [done|done|].
  unfold searchEventOf. by rewrite Ha, Hn.
Qed.

(** X10. [play] is called exactly when the player was not playing and
    something was enqueued. *)
Theorem autoPlayFunction_play_iff (lastTrack : option Track) (w : World)
    (evs : list Event) :
  trace (autoPlayFunction lastTrack w).2 = trace w ++ evs ->
  EPlay ∈ evs <->
  playing (player w) = false /\ exists tracks, EQueueAdd tracks ∈ evs.
Proof.
  intros Htrace.
  destruct (autoPlayFunction_shape lastTrack w)
    as (w1 & [Hp (calls & Ht & Hcalls)] & [Hrun | (ts & Hne & _ & Hrun)]);
    rewrite Hrun in Htrace.
  - cbn [snd] in Htrace. rewrite Ht in Htrace. apply app_inv_head in Htrace.
    subst evs. rewrite Forall_forall in Hcalls. split.
    + intros Hin. destruct (Hcalls _ Hin).
    + intros [_ [tracks Hin]]. destruct (Hcalls _ Hin).
  - rewrite addAndPlay_run in Htrace. cbn [snd] in Htrace.
    rewrite Hp in Htrace.
    assert ((0 <? length (queue_tracks (player w) ++ ts)) = true) as Hlen.
    { apply Nat.ltb_lt. rewrite length_app. destruct ts; [done | simpl; lia]. }
    rewrite Hlen, andb_true_r in Htrace.
    rewrite Forall_forall in Hcalls.
    destruct (playing (player w)); cbn [negb trace] in Htrace;
      rewrite Ht, <- (assoc_L (++)) in Htrace;
      apply app_inv_head in Htrace; subst evs.
    + split; [|by intros [? _]].
      intros [Hin|Hin]%elem_of_app; [destruct (Hcalls _ Hin)|].
      by apply list_elem_of_singleton in Hin.
    + split; [|intros _; apply elem_of_app; right; right; left].
      intros _. split; [done|]. exists ts. apply elem_of_app. right. left.
Qed.








(** X13. Without an API key (unset or empty) the lookup fetches nothing
    and gives the empty list, and [autoPlayFunction] is its fallback
    path run from the same state. *)
Theorem autoPlayFunction_without_key (lastTrack : Track) (w : World) :
  LASTFM_API_KEY = None \/ LASTFM_API_KEY = Some "" ->
  getSimilarTracksFromLastFm
    (author (info lastTrack)) (title (info lastTrack)) w = (Returned [], w) /\
  (autoplay (player w) = true ->
   autoPlayFunction (Some lastTrack) w = fallbackSearch lastTrack w).
Proof.
  intros Hkey.
  assert (getSimilarTracksFromLastFm
            (author (info lastTrack)) (title (info lastTrack)) w
          = (Returned [], w)) as Hsim.
  { unfold getSimilarTracksFromLastFm, tryCatch, lookupBody.
    by destruct Hkey as [-> | ->]. }
  split; [done|]. intros Hauto.
  by rewrite (autoPlayFunction_run _ _ _ _ _ _ Hauto Hsim
                (primarySearch_nil lastTrack w)).
Qed.

(** X14. [getSimilarTracksFromLastFm] never rejects and touches nothing
    but the recommendation service: it leaves the player as it is and
    makes one fetch, of the URL built from the key and the encoded artist
    and track, exactly when the key is set and both encodings succeed,
    and no call otherwise. *)
Theorem getSimilarTracksFromLastFm_effect (artist track : string) (w : World) :
  exists similarTracks w',
    getSimilarTracksFromLastFm artist track w = (Returned similarTracks, w') /\
    player w' = player w /\
    trace w' = trace w ++ match lookupUrlOf artist track with
                          | Some url => [EFetch url]
                          | None => []
                          end.
Proof. apply getSimilarTracksFromLastFm_trace. Qed.
End autoplay_extras_paths.

(** * Further properties of the recommendation lookup *)

Lemma filterThrowing_kept {A} (f : A -> option bool) (l kept : list A) :
  filterThrowing f l = Some kept ->
  Forall (fun x => f x = Some true) kept /\ kept ⊆ l.
Proof.
  revert kept. induction l as [|x l IH]; intros kept; simpl.
  - intros [= <-]. split; [constructor | done].
  - destruct (f x) as [keep|] eqn:Hx; [|done]. simpl.
    destruct (filterThrowing f l) as [rest|]; [|done]. simpl.
    intros [= <-]. destruct (IH rest eq_refl) as [Hall Hsub].
    destruct keep.
    + split; [by constructor|]. intros y [->|Hy]%elem_of_cons; [left|].
      right. by apply Hsub.
    + split; [done|]. intros y Hy. right. by apply Hsub.
Qed.

Lemma toCandidate_name t c :
  hasArtistAndName t = Some true -> toCandidate t = Some c ->
  truthy (name c) = true.
Proof.
  unfold hasArtistAndName, toCandidate.
  destruct (getProp t "artist") as [a|]; [|done]. simpl.
  destruct (truthy a); [|done].
  destruct (getProp t "name") as [n|]; [|done]. simpl. intros [= Hn].
  destruct (match a with JStr _ => Some a | _ => getProp a "name" end); [|done].
  simpl. by intros [= <-].
Qed.

Lemma similarTracksOfData_bound data similarTracks :
  similarTracksOfData data = Some similarTracks ->
  length similarTracks <= 10 /\
  Forall (fun c => truthy (name c) = true) similarTracks.
Proof.
  unfold similarTracksOfData.
  destruct (getProp data "similartracks") as [st|]; [|done]. simpl.
  destruct (truthy st); [|intros [= <-]; split; [simpl; lia | constructor]].
  destruct (getProp st "track") as [tr|]; [|done]. simpl.
  destruct (truthy tr); [|intros [= <-]; split; [simpl; lia | constructor]].
  destruct (filterThrowing hasArtistAndName _) as [kept|] eqn:Hk; [|done].
  simpl. destruct (mapM toCandidate kept) as [cands|] eqn:Hc; [|done].
  simpl. intros [= <-]. split; [rewrite length_take; lia|].
  apply Forall_take. apply filterThrowing_kept in Hk as [Hk _].
  apply mapM_Some_1 in Hc. clear -Hk Hc.
  induction Hc as [|t c kept cands Htc _ IH]; [constructor|].
  apply Forall_cons in Hk as [Ht Hk]. constructor; [|by apply IH].
  by eapply toCandidate_name.
Qed.

(** X15. The lookup gives at most 10 candidates, and the name of each
    is truthy: an entry without a name never becomes a candidate. *)
Theorem getSimilarTracksFromLastFm_bound `{Collaborators}
    (artist track : string) (w : World) :
  exists similarTracks w',
    getSimilarTracksFromLastFm artist track w = (Returned similarTracks, w') /\
    length similarTracks <= 10 /\
    Forall (fun c => truthy (name c) = true) similarTracks.
Proof.
  assert (forall w' : World, exists (l : list Candidate) (w'' : World),
            (Returned (A := list Candidate) [], w') = (Returned l, w'') /\
            length l <= 10 /\ Forall (fun c => truthy (name c) = true) l)
    as Hnil.
  { intros w'. exists [], w'. split_and!; [done | simpl; lia | constructor]. }
  unfold getSimilarTracksFromLastFm, tryCatch, lookupBody.
  destruct LASTFM_API_KEY as [key|]; [|by apply Hnil].
  destruct (bool_decide (key = "")); [by apply Hnil|].
  rewrite bind_run, orThrow_run.
  destruct (encodeURIComponent artist) as [ea|]; [|by apply Hnil].
  rewrite bind_run, orThrow_run.
  destruct (encodeURIComponent track) as [et|]; [|by apply Hnil].
  cbn zeta. rewrite bind_run, fetchUrl_run.
  destruct (fetch (trace w) _) as [[data|]|]; unfold json;
    rewrite ?bind_run, ?orThrow_run; try (by apply Hnil).
  destruct (similarTracksOfData data) as [l|] eqn:Hd; [|by apply Hnil].
  destruct (similarTracksOfData_bound data l Hd). by eexists _, _.
Qed.

Lemma wellShapedEntry_keep t :
  wellShapedEntry t = true -> exists b, hasArtistAndName t = Some b.
Proof.
  destruct t; try done. intros _. unfold hasArtistAndName. simpl.
  destruct (truthy _); eauto.
Qed.

Lemma wellShapedEntry_candidate t :
  wellShapedEntry t = true ->
  exists c, toCandidate t = Some c /\ declaredCandidate c.
Proof.
  destruct t as [| | | | | |fields]; try done. unfold toCandidate. simpl.
  intros [Hname Hartist]%andb_true_iff.
  destruct (default JUndefined (JsMap.get fields "name")) as [| | | |n| |];
    try done.
  destruct (default JUndefined (JsMap.get fields "artist"))
    as [| | | |a| |afields]; try done; simpl.
  - eexists. split; [done|]. by exists a, n.
  - destruct (default JUndefined (JsMap.get afields "name")) as [| | | |an| |];
      try done.
    eexists. split; [done|]. by exists an, n.
Qed.

Lemma wellShaped_entries (entries : list JsVal) :
  Forall (fun t => wellShapedEntry t = true) entries ->
  exists kept cands,
    filterThrowing hasArtistAndName entries = Some kept /\
    mapM toCandidate kept = Some cands /\
    Forall declaredCandidate cands.
Proof.
  induction 1 as [|t entries Ht _ (kept & cands & Hk & Hc & Hd)].
  - by exists [], [].
  - destruct (wellShapedEntry_keep t Ht) as [b Hb].
    destruct (wellShapedEntry_candidate t Ht) as (c & Htc & Hdc).
    simpl. rewrite Hb, Hk. simpl. destruct b.
    + exists (t :: kept), (c :: cands). split; [done|]. split; [|by constructor].
      simpl. by rewrite Htc, Hc.
    + by exists kept, cands.
Qed.

(** X16. An answer of the expected shape is read without a throw, and
    every candidate read from it is as declared: artist and name are
    strings. *)
Theorem similarTracksOfData_wellShaped (data : JsVal) :
  wellShaped data = true ->
  exists similarTracks,
    similarTracksOfData data = Some similarTracks /\
    Forall declaredCandidate similarTracks.
Proof.
  destruct data as [| | | | | |fields]; try done. simpl.
  unfold similarTracksOfData. simpl.
  destruct (JsMap.get fields "similartracks") as [[| | | | | |sfields]|];
    try done. simpl.
  destruct (JsMap.get sfields "track") as [[| | | | |entries|entry]|];
    try done; simpl; intros Hshape.
  - assert (Forall (fun t => wellShapedEntry t = true) entries) as Hall.
    { apply Forall_forall. intros t Ht.
      apply (proj1 (forallb_forall _ _) Hshape), list_elem_of_In, Ht. }
    destruct (wellShaped_entries entries Hall) as (kept & cands & -> & Hc & Hd).
    simpl. rewrite Hc. simpl. eexists. split; [done|]. by apply Forall_take.
  - assert (Forall (fun t => wellShapedEntry t = true) [JObj entry]) as Hall
      by (by constructor).
    destruct (wellShaped_entries _ Hall) as (kept & cands & Hk & Hc & Hd).
    simpl in Hk. rewrite Hk. simpl. rewrite Hc. simpl.
    eexists. split; [done|]. by apply Forall_take.
Qed.

(** * Further properties of the lyrics filter *)

Lemma prefix_shorter (a b s : string) :
  String.prefix (a +:+ b) s = true -> String.prefix a s = true.
Proof.
  revert s. induction a as [|c a IH]; intros s; [by destruct s|].
  destruct s as [|c' s]; simpl; [done|].
  destruct (Ascii.ascii_dec c c'); [apply IH | done].
Qed.

Lemma includes_shorter (s a b : string) :
  includes s (a +:+ b) = true -> includes s a = true.
Proof.
  induction s as [|c s IH]; cbn [includes].
  - rewrite !orb_false_r. apply prefix_shorter.
  - intros [Hp|Hi]%orb_true_iff; apply orb_true_iff.
    + left. by eapply prefix_shorter.
    + right. by apply IH.
Qed.

(** X17. The test for "lyrics" adds nothing to the test for "lyric": a
    track is dropped exactly when its title in lower case contains
    "lyric". *)
Theorem isLyricsVersion_lyric (track : Track) :
  isLyricsVersion track = includes (toLowerCase (title (info track))) "lyric".
Proof.
  unfold isLyricsVersion. cbn zeta.
  destruct (includes _ "lyrics") eqn:Hs; [|done].
  symmetry. apply (includes_shorter _ "lyric" "s"), Hs.
Qed.

(** * Properties of requesterTransformer *)

Lemma unknownRequester_result v result :
  unknownRequester v = Some result ->
  exists shown, shown <> "" /\ result = unknownWith shown.
Proof.
  unfold unknownRequester.
  destruct (match v with JUndefined | JNull => Some "" | _ => toStringOf v end)
    as [shown|]; [|done].
  simpl. intros [= <-]. destruct (bool_decide (shown = "")) eqn:Hs.
  - by exists "unknown".
  - apply bool_decide_eq_false in Hs. by exists shown.
Qed.

Lemma requesterTransformer_cases (requester result : RequesterArg) :
  requesterTransformer requester = Some result ->
  (recognised requester = true /\ result = requester) \/
  (exists props displayAvatarURL,
     requester = UserObject props displayAvatarURL /\
     result = Plain (JObj
       [("id", default JUndefined (JsMap.get props "id"));
        ("username", default JUndefined (JsMap.get props "username"));
        ("avatarURL", displayAvatarURL "png");
        ("discriminator", default JUndefined (JsMap.get props "discriminator"))])) \/
  (exists shown, shown <> "" /\ result = unknownWith shown).
Proof.
  destruct requester as [v|props f]; simpl.
  - destruct v as [| | | | | |fields];
      try (intros Hr; right; right; by apply (unknownRequester_result _ _ Hr)).
    + done.
    + destruct (looksTransformed fields) eqn:Hl; [intros [= <-]; by left|].
      destruct (JsMap.has fields "displayAvatarURL"); [done|].
      intros Hr. right. right. by apply (unknownRequester_result _ _ Hr).
  - destruct (looksTransformed props) eqn:Hl; intros [= <-]; [by left|].
    right. left. by eexists _, _.
Qed.

(** X18. What [requesterTransformer] returns is the argument itself (when
    it has an [avatar] property and exactly three properties), or, for a
    user, the record of its id, username, PNG avatar URL and
    discriminator, or else a requester with username "unknown" whose id
    is a string that is never empty. *)
Theorem requesterTransformer_result (requester result : RequesterArg) :
  requesterTransformer requester = Some result ->
  (recognised requester = true /\ result = requester) \/
  (exists props displayAvatarURL,
     requester = UserObject props displayAvatarURL /\
     result = Plain (JObj
       [("id", default JUndefined (JsMap.get props "id"));
        ("username", default JUndefined (JsMap.get props "username"));
        ("avatarURL", displayAvatarURL "png");
        ("discriminator", default JUndefined (JsMap.get props "discriminator"))])) \/
  (exists shown, shown <> "" /\ result = unknownWith shown).
Proof. apply requesterTransformer_cases. Qed.

(** X19. The transformer does not recognise its own results: when the
    argument is not taken for an already transformed requester, a second
    transformation of the result gives the requester with id
    "[object Object]" and username "unknown". *)
Theorem requesterTransformer_twice (requester result : RequesterArg) :
  requesterTransformer requester = Some result ->
  recognised requester = false ->
  requesterTransformer result = Some (unknownWith "[object Object]").
Proof.
  intros Hr Hrec.
  destruct (requesterTransformer_cases _ _ Hr)
    as [[Hrec' _] | [(props & f & -> & ->) | (shown & _ & ->)]].
  - congruence.
  - reflexivity.
  - reflexivity.
Qed.


(** * Concrete runs for the further properties *)

Lemma applyFairPlayToQueue_idempotent_witness :
  exists fairQueue w1 w2,
    applyFairPlayToQueue 4 (startOf (idlePlayer false sharedQueue))
      = Some (Returned fairQueue, w1) /\
    applyFairPlayToQueue 4 w1 = Some (Returned fairQueue, w2) /\
    queue_tracks (player w2) = queue_tracks (player w1).
Proof.
  apply (applyFairPlayToQueue_idempotent 4 (startOf (idlePlayer false sharedQueue))).
  simpl. lia.
Defined.

Lemma applyFairPlayToQueue_balanced_witness :
  exists fairQueue w',
    applyFairPlayToQueue 4 (startOf (idlePlayer false sharedQueue))
      = Some (Returned fairQueue, w') /\
    forall served rest X Y,
      fairQueue = served ++ rest ->
      tracksOf X rest <> [] -> tracksOf Y rest <> [] ->
      length (tracksOf X served) <= length (tracksOf Y served) + 1.
Proof.
  apply (applyFairPlayToQueue_balanced 4 (startOf (idlePlayer false sharedQueue))).
  simpl. lia.
Defined.

Lemma applyFairPlayToQueue_keeps_head_witness :
  exists rest w',
    applyFairPlayToQueue 4 (startOf (idlePlayer false sharedQueue))
      = Some (Returned (mkTrack "A" "a1" :: rest), w').
Proof.
  apply (applyFairPlayToQueue_keeps_head 4 (startOf (idlePlayer false sharedQueue))
           (mkTrack "A" "a1")
           [mkTrack "A" "a2"; mkTrack "A" "a3"; mkTrack "B" "b1"]).
  - reflexivity.
  - simpl. lia.
Defined.

Lemma applyFairPlayToQueue_single_requester_witness :
  let queue := [mkTrack "A" "a1"; mkTrack "A" "a2"] in
  exists w',
    applyFairPlayToQueue 2 (startOf (idlePlayer false queue))
      = Some (Returned queue, w') /\
    queue_tracks (player w') = queue.
Proof.
  apply (applyFairPlayToQueue_single_requester 2
           (startOf (idlePlayer false [mkTrack "A" "a1"; mkTrack "A" "a2"])) "A").
  - simpl. lia.
  - repeat constructor.
Defined.

Lemma autoPlayFunction_call_budget_witness :
  let evs := trace (autoPlayFunction (H := lastFmDown) (Some (mkTrack "u" "last"))
                      (startOf (idlePlayer true []))).2 in
  length (fetchesOf evs) <= 1 /\ length (searchesOf evs) <= 11 /\
  length (addsOf evs) <= 1 /\ length (playsOf evs) <= 1 /\
  splicesOf evs = [] /\
  Forall (fun tracks => 1 <= length tracks <= 10) (addsOf evs).
Proof.
  apply (@autoPlayFunction_call_budget lastFmDown (Some (mkTrack "u" "last"))
           (startOf (idlePlayer true []))).
  reflexivity.
Defined.


Lemma primarySearch_searches_witness :
  let lastTrack := mkTrack "u" "last" in
  let sim := [{| artist := JStr "a"; name := JStr "x" |};
              {| artist := JStr "b"; name := JStr "y" |}] in
  exists survivors w' searches,
    primarySearch (H := lyricsOnly) lastTrack sim (startOf (idlePlayer true []))
      = (Returned survivors, w') /\
    player w' = idlePlayer true [] /\
    trace w' = [] ++ searches /\
    Forall2 (fun e c => exists a n,
               artist c = JStr a /\ name c = JStr n /\
               e = ESearch (a +:+ " " +:+ n) "ytmsearch" (requester lastTrack))
            searches (take 10 sim).
Proof.
  apply (@primarySearch_searches lyricsOnly (mkTrack "u" "last")
           [{| artist := JStr "a"; name := JStr "x" |};
            {| artist := JStr "b"; name := JStr "y" |}]
           (startOf (idlePlayer true []))).
  repeat constructor; by eexists _, _.
Defined.

Lemma autoPlayFunction_play_iff_witness :
  let w := startOf (idlePlayer true []) in
  let evs := trace (autoPlayFunction (H := lastFmDown)
                      (Some (mkTrack "u" "last")) w).2 in
  EPlay ∈ evs <-> playing (player w) = false /\ exists tracks, EQueueAdd tracks ∈ evs.
Proof.
  apply (@autoPlayFunction_play_iff lastFmDown (Some (mkTrack "u" "last"))
           (startOf (idlePlayer true []))).
  reflexivity.
Defined.



Lemma autoPlayFunction_without_key_witness :
  let w := startOf (idlePlayer true []) in
  let lastTrack := mkTrack "u" "last" in
  getSimilarTracksFromLastFm (H := noApiKey) "artist" "last" w = (Returned [], w) /\
  (autoplay (player w) = true ->
   autoPlayFunction (H := noApiKey) (Some lastTrack) w
   = fallbackSearch (H := noApiKey) lastTrack w).
Proof.
  apply (@autoPlayFunction_without_key noApiKey (mkTrack "u" "last")
           (startOf (idlePlayer true []))).
  left. reflexivity.
Defined.

Lemma similarTracksOfData_wellShaped_witness :
  exists similarTracks,
    similarTracksOfData wellShapedAnswer = Some similarTracks /\
    Forall declaredCandidate similarTracks.
Proof. apply (similarTracksOfData_wellShaped wellShapedAnswer). reflexivity. Defined.

Lemma requesterTransformer_result_witness :
  let result := Plain (JObj [("id", JStr "42"); ("username", JStr "ada");
                             ("avatarURL", JStr "https://cdn/42.png");
                             ("discriminator", JStr "0")]) in
  (recognised someUser = true /\ result = someUser) \/
  (exists props displayAvatarURL,
     someUser = UserObject props displayAvatarURL /\
     result = Plain (JObj
       [("id", default JUndefined (JsMap.get props "id"));
        ("username", default JUndefined (JsMap.get props "username"));
        ("avatarURL", displayAvatarURL "png");
        ("discriminator", default JUndefined (JsMap.get props "discriminator"))])) \/
  (exists shown, shown <> "" /\ result = unknownWith shown).
Proof. apply (requesterTransformer_result someUser). reflexivity. Defined.

Lemma requesterTransformer_twice_witness :
  requesterTransformer
    (Plain (JObj [("id", JStr "42"); ("username", JStr "ada");
                  ("avatarURL", JStr "https://cdn/42.png");
                  ("discriminator", JStr "0")]))
  = Some (unknownWith "[object Object]").
Proof.
  apply (requesterTransformer_twice someUser); reflexivity.
Defined.

(** * Properties of paginateLyrics *)

Section lyrics_properties.
Context {C : Type} `{EqDecision C}.
Variable newline : C.
Variable isWhiteSpace : C -> bool.
Hypothesis newline_isWhiteSpace : isWhiteSpace newline = true.

#[local] Abbreviation visible := (filter (fun c => isWhiteSpace c = false)).
#[local] Abbreviation trimStart := (trimStart isWhiteSpace).
#[local] Abbreviation trimEnd := (trimEnd isWhiteSpace).
#[local] Abbreviation trim := (trim isWhiteSpace).
#[local] Abbreviation pushPage := (pushPage isWhiteSpace).
#[local] Abbreviation goodPage := (goodPage isWhiteSpace).
#[local] Abbreviation addLine := (addLine newline isWhiteSpace).
#[local] Abbreviation splitLines := (splitLines newline).

Lemma visible_trimStart s : visible (trimStart s) = visible s.
Proof.
  induction s as [|c s IH]; [done|]. simpl.
  destruct (isWhiteSpace c) eqn:Hc; [|done].
  rewrite filter_cons_False by (by rewrite Hc). done.
Qed.

Lemma visible_trim s : visible (trim s) = visible s.
Proof.
  unfold trim, trimEnd.
  rewrite filter_reverse, visible_trimStart, <- filter_reverse.
  by rewrite reverse_involutive, visible_trimStart.
Qed.

Lemma length_trimStart s : length (trimStart s) <= length s.
Proof.
  induction s as [|c s IH]; simpl; [lia|].
  destruct (isWhiteSpace c); simpl; lia.
Qed.

Lemma length_trim s : length (trim s) <= length s.
Proof.
  unfold trim, trimEnd. rewrite length_reverse.
  etrans; [apply length_trimStart|]. rewrite length_reverse.
  apply length_trimStart.
Qed.

Lemma trimStart_blank s : visible s = [] -> trimStart s = [].
Proof.
  induction s as [|c s IH]; [done|]. simpl.
  destruct (isWhiteSpace c) eqn:Hc.
  - rewrite filter_cons_False by (by rewrite Hc). done.
  - by rewrite filter_cons_True.
Qed.

Lemma trim_blank s : visible s = [] -> trim s = [].
Proof. intros Hs. unfold trim, trimEnd. by rewrite (trimStart_blank s). Qed.

Lemma head_trimStart s c : head (trimStart s) = Some c -> isWhiteSpace c = false.
Proof.
  induction s as [|c' s IH]; [done|]. simpl.
  destruct (isWhiteSpace c') eqn:Hc; [done|]. by intros [= <-].
Qed.

(** Dropping white space at the front keeps the last code unit. *)
Lemma last_trimStart s : trimStart s <> [] -> last (trimStart s) = last s.
Proof.
  induction s as [|c s IH]; [done|]. simpl.
  destruct (isWhiteSpace c); [|done].
  intros Hne. rewrite IH by done. rewrite last_cons.
  destruct (last s) eqn:Hl; [done|].
  apply last_None in Hl. subst s. done.
Qed.

(** A trimmed string begins and ends with a code unit that is not white
    space. *)
Lemma trim_ends s c :
  head (trim s) = Some c \/ last (trim s) = Some c -> isWhiteSpace c = false.
Proof.
  unfold trim, trimEnd.
  set (s1 := trimStart s). rewrite head_reverse, last_reverse.
  intros [Hh|Hl].
  - destruct (decide (trimStart (reverse s1) = [])) as [He|Hne].
    { by rewrite He in Hh. }
    rewrite last_trimStart, last_reverse in Hh by done.
    by apply (head_trimStart s).
  - by apply (head_trimStart (reverse s1)).
Qed.

Lemma visible_splitLines s : visible (concat (splitLines s)) = visible s.
Proof.
  induction s as [|c s IH]; [done|]. simpl.
  destruct (decide (c = newline)) as [->|Hne].
  - simpl. rewrite IH.
    rewrite filter_cons_False by (by rewrite newline_isWhiteSpace). done.
  - destruct (splitLines s) as [|line rest]; simpl in *.
    + destruct (isWhiteSpace c) eqn:Hc.
      * rewrite !filter_cons_False by (by rewrite Hc). done.
      * rewrite !filter_cons_True by done. by rewrite <- IH.
    + destruct (isWhiteSpace c) eqn:Hc.
      * rewrite !filter_cons_False by (by rewrite Hc). done.
      * rewrite !filter_cons_True by done. by rewrite <- IH.
Qed.

Lemma visible_pushPage ps cur :
  visible (concat (pushPage ps cur)) = visible (concat ps ++ cur).
Proof.
  unfold pushPage. rewrite filter_app, <- (visible_trim cur).
  destruct (trim cur) as [|c t].
  - by rewrite app_nil_r.
  - rewrite concat_app, filter_app. simpl. by rewrite app_nil_r.
Qed.

Lemma pushPage_good ps cur :
  Forall goodPage ps -> Forall goodPage (pushPage ps cur).
Proof.
  intros Hgood. unfold pushPage.
  destruct (trim cur) as [|c t] eqn:Ht; [done|].
  apply Forall_app. split; [done|]. apply Forall_singleton.
  split; [done|]. rewrite <- Ht. apply trim_ends.
Qed.

Lemma pushPage_bound ps cur (bound : nat) :
  Forall (fun p => length p <= bound) ps -> length cur <= bound ->
  Forall (fun p => length p <= bound) (pushPage ps cur).
Proof.
  intros Hlen Hcur. unfold pushPage.
  destruct (trim cur) as [|c t] eqn:Ht; [done|].
  apply Forall_app. split; [done|]. apply Forall_singleton.
  rewrite <- Ht. pose proof (length_trim cur). lia.
Qed.

Lemma visible_line line : visible (line ++ [newline]) = visible line.
Proof.
  rewrite filter_app, filter_cons_False by (by rewrite newline_isWhiteSpace).
  by rewrite app_nil_r.
Qed.

Lemma addLine_visible st line :
  visible (concat (pages (addLine st line)) ++ currentPage (addLine st line))
  = visible (concat (pages st) ++ currentPage st) ++ visible line.
Proof.
  unfold addLine. cbn zeta. destruct (_ <? _); cbn [pages currentPage].
  - rewrite filter_app, visible_pushPage, visible_line. done.
  - rewrite (assoc_L (++)), filter_app, visible_line. done.
Qed.

Lemma addLine_good st line :
  Forall goodPage (pages st) -> Forall goodPage (pages (addLine st line)).
Proof.
  intros Hgood. unfold addLine. cbn zeta. destruct (_ <? _); cbn [pages]; [|done].
  by apply pushPage_good.
Qed.

Lemma addLine_bound st line :
  length line < MAX_CHARACTERS_PER_PAGE ->
  Forall (fun p => length p <= MAX_CHARACTERS_PER_PAGE) (pages st) ->
  length (currentPage st) <= MAX_CHARACTERS_PER_PAGE ->
  Forall (fun p => length p <= MAX_CHARACTERS_PER_PAGE) (pages (addLine st line)) /\
  length (currentPage (addLine st line)) <= MAX_CHARACTERS_PER_PAGE.
Proof.
  intros Hline Hlen Hcur. unfold addLine. cbn zeta.
  destruct (Nat.ltb_spec MAX_CHARACTERS_PER_PAGE
              (length (currentPage st) + length (line ++ [newline])));
    cbn [pages currentPage].
  - split; [by apply pushPage_bound|]. rewrite length_app. simpl. lia.
  - split; [done|]. rewrite length_app. lia.
Qed.

(** What the loop keeps: the visible text read so far is in the pages
    and the current page, in order, and the pages are good. *)
Lemma fold_addLine lines : forall st,
  Forall goodPage (pages st) ->
  visible (concat (pages (fold_left addLine lines st))
           ++ currentPage (fold_left addLine lines st))
    = visible (concat (pages st) ++ currentPage st) ++ visible (concat lines) /\
  Forall goodPage (pages (fold_left addLine lines st)).
Proof.
  induction lines as [|line lines IH]; intros st Hgood.
  - simpl. by rewrite app_nil_r.
  - cbn [fold_left].
    destruct (IH (addLine st line) (addLine_good st line Hgood)) as [Hvis Hg].
    split; [|done]. rewrite Hvis, addLine_visible. simpl.
    by rewrite (filter_app _ line), (assoc_L (++)).
Qed.

Lemma fold_addLine_bound lines : forall st,
  Forall (fun line => length line < MAX_CHARACTERS_PER_PAGE) lines ->
  Forall (fun p => length p <= MAX_CHARACTERS_PER_PAGE) (pages st) ->
  length (currentPage st) <= MAX_CHARACTERS_PER_PAGE ->
  Forall (fun p => length p <= MAX_CHARACTERS_PER_PAGE)
         (pages (fold_left addLine lines st)) /\
  length (currentPage (fold_left addLine lines st)) <= MAX_CHARACTERS_PER_PAGE.
Proof.
  induction lines as [|line lines IH]; intros st Hlines Hlen Hcur; [done|].
  apply Forall_cons in Hlines as [Hline Hlines]. cbn [fold_left].
  destruct (addLine_bound st line Hline Hlen Hcur) as [Hlen1 Hcur1].
  by apply IH.
Qed.
Lemma goodPages_visible ps :
  Forall goodPage ps -> visible (concat ps) = [] -> ps = [].
Proof.
  destruct 1 as [|p ps [Hne Hends] _]; [done|]. simpl.
  destruct p as [|c p]; [done|]. simpl.
  rewrite filter_cons_True by (apply Hends; by left). done.
Qed.

(** The pages before the last step of the function, which adds the
    page that says that no lyrics are available when there is none. *)
Lemma pages_of_lyrics noLyricsAvailable lyrics :
  exists ps,
    paginateLyrics newline isWhiteSpace noLyricsAvailable lyrics
      = match ps with [] => [noLyricsAvailable] | _ :: _ => ps end /\
    visible (concat ps) = visible lyrics /\ Forall goodPage ps /\
    (Forall (fun line => length line < MAX_CHARACTERS_PER_PAGE)
            (splitLines lyrics) ->
     Forall (fun p => length p <= MAX_CHARACTERS_PER_PAGE) ps).
Proof.
  set (st := fold_left addLine (splitLines lyrics)
               {| pages := []; currentPage := [] |}).
  exists (pushPage (pages st) (currentPage st)).
  destruct (fold_addLine (splitLines lyrics) {| pages := []; currentPage := [] |})
    as [Hvis Hgood]; [constructor|]. fold st in Hvis, Hgood.
  split_and!.
  - unfold paginateLyrics. cbn zeta. fold st.
    by destruct (pushPage (pages st) (currentPage st)).
  - rewrite visible_pushPage, Hvis. simpl. apply visible_splitLines.
  - by apply pushPage_good.
  - intros Hlines.
    destruct (fold_addLine_bound (splitLines lyrics)
                {| pages := []; currentPage := [] |} Hlines)
      as [Hlen Hcur]; [constructor | simpl; lia |].
    by apply pushPage_bound.
Qed.

(** X21. No lyrics are lost: when the lyrics have any text, the pages,
    read one after the other, hold the same code units other than white
    space, in the same order. *)
Theorem paginateLyrics_keeps_text (noLyricsAvailable lyrics : list C) :
  visible lyrics <> [] ->
  visible (concat (paginateLyrics newline isWhiteSpace noLyricsAvailable lyrics))
  = visible lyrics.
Proof.
  intros Htext.
  destruct (pages_of_lyrics noLyricsAvailable lyrics) as (ps & -> & Hvis & _ & _).
  destruct ps as [|p ps]; [|done]. destruct Htext. by rewrite <- Hvis.
Qed.

(** X22. Lyrics that are empty or all white space give the single page
    that says that no lyrics are available. *)
Theorem paginateLyrics_blank (noLyricsAvailable lyrics : list C) :
  visible lyrics = [] ->
  paginateLyrics newline isWhiteSpace noLyricsAvailable lyrics
  = [noLyricsAvailable].
Proof.
  intros Hblank.
  destruct (pages_of_lyrics noLyricsAvailable lyrics)
    as (ps & -> & Hvis & Hgood & _).
  rewrite Hblank in Hvis. by rewrite (goodPages_visible _ Hgood Hvis).
Qed.

(** X23. There is always at least one page, and unless the result is the
    page that says that no lyrics are available, no page is empty and no
    page begins or ends with white space. *)
Theorem paginateLyrics_pages_trimmed (noLyricsAvailable lyrics : list C) :
  paginateLyrics newline isWhiteSpace noLyricsAvailable lyrics <> [] /\
  (paginateLyrics newline isWhiteSpace noLyricsAvailable lyrics
     = [noLyricsAvailable] \/
   Forall goodPage
     (paginateLyrics newline isWhiteSpace noLyricsAvailable lyrics)).
Proof.
  destruct (pages_of_lyrics noLyricsAvailable lyrics) as (ps & -> & _ & Hgood & _).
  destruct ps as [|p ps]; [by split; [|left] | by split; [|right]].
Qed.

(** X24. When every line of the lyrics has fewer than 2800 code units,
    no page of lyrics has more than 2800. *)
Theorem paginateLyrics_page_size (noLyricsAvailable lyrics : list C) :
  Forall (fun line => length line < 2800) (splitLines lyrics) ->
  paginateLyrics newline isWhiteSpace noLyricsAvailable lyrics
    = [noLyricsAvailable] \/
  Forall (fun p => length p <= 2800)
    (paginateLyrics newline isWhiteSpace noLyricsAvailable lyrics).
Proof.
  intros Hlines.
  destruct (pages_of_lyrics noLyricsAvailable lyrics) as (ps & -> & _ & _ & Hbound).
  specialize (Hbound Hlines). destruct ps as [|p ps]; [by left | by right].
Qed.
End lyrics_properties.

Lemma paginateLyrics_keeps_text_witness :
  filter (fun c => blankUnit c = false)
    (concat (paginateLyrics 10 blankUnit noLyricsPage sampleLyrics))
  = filter (fun c => blankUnit c = false) sampleLyrics.
Proof.
  apply (paginateLyrics_keeps_text 10 blankUnit); [reflexivity|].
  vm_compute. discriminate.
Defined.

Lemma paginateLyrics_blank_witness :
  paginateLyrics 10 blankUnit noLyricsPage [32; 10; 10; 32] = [noLyricsPage].
Proof.
  apply (paginateLyrics_blank 10 blankUnit); [reflexivity|].
  vm_compute. reflexivity.
Defined.

Lemma paginateLyrics_pages_trimmed_witness :
  paginateLyrics 10 blankUnit noLyricsPage sampleLyrics <> [] /\
  (paginateLyrics 10 blankUnit noLyricsPage sampleLyrics = [noLyricsPage] \/
   Forall (goodPage blankUnit)
     (paginateLyrics 10 blankUnit noLyricsPage sampleLyrics)).
Proof. apply (paginateLyrics_pages_trimmed 10 blankUnit). reflexivity. Defined.

Lemma paginateLyrics_page_size_witness :
  paginateLyrics 10 blankUnit noLyricsPage sampleLyrics = [noLyricsPage] \/
  Forall (fun p => length p <= 2800)
    (paginateLyrics 10 blankUnit noLyricsPage sampleLyrics).
Proof.
  apply (paginateLyrics_page_size 10 blankUnit); [reflexivity|].
  repeat constructor; simpl; lia.
Defined.

Example paginateLyrics_sample :
  paginateLyrics 10 blankUnit noLyricsPage sampleLyrics
  = [[104; 105; 10; 32; 10; 32; 121; 111]].
Proof. vm_compute. reflexivity. Qed.
